(** * Task reconstruction and reporting of [scrapper.py]

    A shallow embedding of the message-scraping core of the Google Spaces
    tasks reporter: the retrieval loop [get_messages_for_space], the mention
    scan of [get_people], the two passes of [get_tasks] and the grouping of
    [analyze_tasks].

    Conventions.
    - A Python [str] is a [string]; a character stands for one code point,
      and the model covers the code points below 256.
    - A Python [set] of strings is a [gset string].  Python leaves the
      iteration order of a set unspecified, so the one loop that iterates a
      set takes a ranking of the strings that fixes the order.
    - A [dict] with a fixed set of keys is a record; a key that may be
      missing is an [option] field, and reading a missing key raises
      [KeyError].
    - Exceptions are values of [exn], carried by the [result] monad. *)

From Stdlib Require Import Ascii QArith.
From stdpp Require Import base strings list sorting gmap sets.

#[local] Set Warnings "-clear-no-such-hyp".

Local Open Scope nat_scope.

(** ** Exceptions *)

Inductive exn : Type :=
  | KeyError (key : string)
  | IndexError.

Inductive result (A : Type) : Type :=
  | Ok (a : A)
  | Raise (e : exn).
Arguments Ok {A} a.
Arguments Raise {A} e.

Definition rbind {A B : Type} (r : result A) (k : A → result B) : result B :=
  match r with
  | Ok a => k a
  | Raise e => Raise e
  end.

Notation "x <-! r ; k" := (rbind r (fun x => k))
  (at level 100, r at next level, right associativity).

Definition is_ok {A : Type} (r : result A) : Prop := ∃ a, r = Ok a.

(** [l[i]] on a Python list. *)
Definition index {A : Type} (l : list A) (i : nat) : result A :=
  match l !! i with
  | Some x => Ok x
  | None => Raise IndexError
  end.

(** [d[key]] on an optional field. *)
Definition getitem {A : Type} (key : string) (field : option A) : result A :=
  match field with
  | Some x => Ok x
  | None => Raise (KeyError key)
  end.

(** ** The [str] methods the source uses *)

Module Str.

(** [sub in s]. *)
Fixpoint contains (sub s : string) : bool :=
  String.prefix sub s ||
  match s with
  | EmptyString => false
  | String _ s' => contains sub s'
  end.

(** [s.split(sep)] for a non-empty [sep]: the pieces between the
    non-overlapping occurrences of [sep], found from the left.  [split_from]
    returns the first piece and the later ones; [skip] counts the characters
    of a separator that was matched and is being passed over. *)
Fixpoint split_from (sep : string) (skip : nat) (s : string) : string * list string :=
  match s with
  | EmptyString => (EmptyString, [])
  | String c s' =>
      match skip with
      | S k => split_from sep k s'
      | O =>
          if String.prefix sep s
          then let '(h, t) := split_from sep (String.length sep - 1) s' in
               (EmptyString, h :: t)
          else let '(h, t) := split_from sep 0 s' in
               (String c h, t)
      end
  end.

Definition split (sep s : string) : list string :=
  let '(h, t) := split_from sep 0 s in h :: t.

(** [c.isspace()] for the code points below 256. *)
Definition isspace (c : ascii) : bool :=
  let n := nat_of_ascii c in
  ((9 <=? n) && (n <=? 13)) || ((28 <=? n) && (n <=? 32)) || (n =? 133) || (n =? 160).

Fixpoint lstrip (s : string) : string :=
  match s with
  | EmptyString => EmptyString
  | String c s' => if isspace c then lstrip s' else s
  end.

Fixpoint rstrip (s : string) : string :=
  match s with
  | EmptyString => EmptyString
  | String c s' =>
      match rstrip s' with
      | EmptyString => if isspace c then EmptyString else String c EmptyString
      | r => String c r
      end
  end.

(** [s.strip()]. *)
Definition strip (s : string) : string := rstrip (lstrip s).

End Str.

(** ** Messages and tasks *)

(** A message record of the chat API, with the keys the source reads. *)
Record message : Type := Message {
  text : option string;
  thread_name : option string;
  createTime : option string;
  sender_displayName : option string;
}.

(** The [task_data] dict of [get_tasks]. *)
Record task : Type := Task {
  id : string;
  assignee : string;
  status : string;
  created_time : string;
  space_name : string;
}.

#[global] Instance task_eq_dec : EqDecision task.
Proof. solve_decision. Defined.

Definition set_assignee (a : string) (t : task) : task :=
  {| id := id t; assignee := a; status := status t;
     created_time := created_time t; space_name := space_name t |}.

Definition set_status (s : string) (t : task) : task :=
  {| id := id t; assignee := assignee t; status := s;
     created_time := created_time t; space_name := space_name t |}.

(** ** [get_tasks]: collecting the events *)

(** The four sets and the task list that the first loop fills. *)
Record buckets : Type := Buckets {
  tasks : list task;
  completed_tasks : gset string;
  reopened_tasks : gset string;
  deleted_tasks : gset string;
  assigned_tasks : gset string;
}.

Definition no_buckets : buckets :=
  {| tasks := []; completed_tasks := ∅; reopened_tasks := ∅;
     deleted_tasks := ∅; assigned_tasks := ∅ |}.

(** [message['thread']['name'].split("/")[3]] *)
Definition task_id_of (m : message) : result string :=
  name <-! getitem "thread" (thread_name m);
  index (Str.split "/" name) 3.

(** [text.split("@")[1].split("(")[0].strip() if "@" in text else "Unassigned"] *)
Definition assignee_of (text : string) : result string :=
  if Str.contains "@" text then
    after <-! index (Str.split "@" text) 1;
    name <-! index (Str.split "(" after) 0;
    Ok (Str.strip name)
  else Ok "Unassigned".

(** The body of the first [for message in messages] loop. *)
Definition collect (space : string) (b : buckets) (m : message) : result buckets :=
  if Str.contains "via Tasks" (default "" (text m)) then
    task_id <-! task_id_of m;
    text <-! getitem "text" (text m);
    assignee <-! assignee_of text;
    if Str.contains "Created" text then
      created <-! getitem "createTime" (createTime m);
      let task_data :=
        {| id := task_id; assignee := assignee; status := "OPEN";
           created_time := created; space_name := space |} in
      Ok {| tasks := tasks b ++ [task_data];
            completed_tasks := completed_tasks b;
            reopened_tasks := reopened_tasks b;
            deleted_tasks := deleted_tasks b;
            assigned_tasks := assigned_tasks b |}
    else if Str.contains "Assigned" text then
      Ok {| tasks := tasks b;
            completed_tasks := completed_tasks b;
            reopened_tasks := reopened_tasks b;
            deleted_tasks := deleted_tasks b;
            assigned_tasks := {[ task_id +:+ "@" +:+ assignee ]} ∪ assigned_tasks b |}
    else if Str.contains "Completed" text then
      Ok {| tasks := tasks b;
            completed_tasks := {[ task_id ]} ∪ completed_tasks b;
            reopened_tasks := reopened_tasks b;
            deleted_tasks := deleted_tasks b;
            assigned_tasks := assigned_tasks b |}
    else if Str.contains "Deleted" text then
      Ok {| tasks := tasks b;
            completed_tasks := completed_tasks b;
            reopened_tasks := reopened_tasks b;
            deleted_tasks := {[ task_id ]} ∪ deleted_tasks b;
            assigned_tasks := assigned_tasks b |}
    else if Str.contains "Re-opened" text then
      Ok {| tasks := tasks b;
            completed_tasks := completed_tasks b;
            reopened_tasks := {[ task_id ]} ∪ reopened_tasks b;
            deleted_tasks := deleted_tasks b;
            assigned_tasks := assigned_tasks b |}
    else Ok b
  else Ok b.

(** The first loop: an exception leaves it at once. *)
Fixpoint collect_all (space : string) (b : buckets) (messages : list message) : result buckets :=
  match messages with
  | [] => Ok b
  | m :: rest => b' <-! collect space b m; collect_all space b' rest
  end.

(** ** [get_tasks]: updating the task statuses *)

Definition rank_le (rank : string → nat) (a b : string) : Prop := rank a ≤ rank b.

#[global] Instance rank_le_dec rank a b : Decision (rank_le rank a b).
Proof. unfold rank_le. apply _. Defined.

(** Iteration of a set of strings.  CPython visits a set in the order of the
    hashes of its members, which changes from run to run; [rank] stands for
    the hashes of one run, and the set is visited by increasing rank.  Every
    order of the members is the order of some rank ([iterate_any_order]). *)
Definition iterate (rank : string → nat) (X : gset string) : list string :=
  merge_sort (rank_le rank) (elements X).

(** The inner [for assigned in assigned_tasks] loop, on the current task. *)
Fixpoint apply_assigned (entries : list string) (t : task) : result task :=
  match entries with
  | [] => Ok t
  | assigned :: rest =>
      let new_assignment := Str.split "@" assigned in
      tid <-! index new_assignment 0;
      t_assignee <-! index new_assignment 1;
      apply_assigned rest
        (if String.eqb tid (id t) then set_assignee t_assignee t else t)
  end.

(** The [if]/[elif] on the completed and reopened sets. *)
Definition apply_status (b : buckets) (task_id : string) (t : task) : task :=
  if bool_decide (task_id ∈ completed_tasks b) then set_status "COMPLETED" t
  else if bool_decide (task_id ∈ reopened_tasks b) then set_status "OPEN" t
  else t.

(** [tasks.remove(task)]: the first element equal to [task] goes.  The second
    component is the place where the object bound to [task], which the
    iterator took at index [i], sits afterwards: nowhere when it was itself
    the removed one, otherwise one place to the left. *)
Definition remove_task (i : nat) (t : task) (l : list task) : list task * option nat :=
  match list_find (λ x, x = t) l with
  | Some (k, _) => (delete k l, if k =? i then None else Some (i - 1))
  | None => (l, Some i) (* not reached: [tasks[i]] is equal to [task] *)
  end.

(** What the body of [for task in tasks] does to the list when the iterator
    is at index [i] and [tasks[i]] is [t]. *)
Definition visit (rank : string → nat) (b : buckets) (i : nat) (t : task)
    (l : list task) : result (list task) :=
  let task_id := id t in
  let '(l1, pos) :=
    if bool_decide (task_id ∈ deleted_tasks b)
    then remove_task i t l else (l, Some i) in
  t1 <-! apply_assigned (iterate rank (assigned_tasks b)) t;
  let t2 := apply_status b task_id t1 in
  Ok (match pos with Some p => <[p := t2]> l1 | None => l1 end).

(** The second loop, as the list iterator runs it: it holds an index, reads
    [tasks[i]] while [i < len(tasks)] and steps to [i + 1], whatever the body
    did to the list. *)
Fixpoint reconcile (rank : string → nat) (b : buckets) (fuel i : nat)
    (l : list task) : result (list task) :=
  match fuel with
  | O => Ok l
  | S fuel' =>
      match l !! i with
      | None => Ok l
      | Some t => l' <-! visit rank b i t l; reconcile rank b fuel' (S i) l'
      end
  end.

(** [get_tasks] on the messages that the retrieval returned.  The index
    grows at each turn and the list never does, so [len(tasks)] turns are
    enough ([reconcile_fuel]). *)
Definition get_tasks_of (rank : string → nat) (space : string)
    (messages : list message) : result (list task) :=
  b <-! collect_all space no_buckets messages;
  reconcile rank b (length (tasks b)) 0 (tasks b).

(** ** Retrieval: [get_messages_for_space] *)

(** The filter language of the chat API, as far as the source uses it:
    comparisons of [createTime] with a quoted timestamp, joined by [AND]. *)
Inductive comparator : Type := Gt | Lt | Ge | Le.

Record clause : Type := Clause { op : comparator; bound : string }.

Definition dquote : string := String "034"%char EmptyString.

Definition render_op (c : comparator) : string :=
  match c with Gt => ">" | Lt => "<" | Ge => ">=" | Le => "<=" end.

Definition render_clause (c : clause) : string :=
  "createTime " +:+ render_op (op c) +:+ " " +:+ dquote +:+ bound c +:+ dquote.

Fixpoint render (q : list clause) : string :=
  match q with
  | [] => ""
  | [c] => render_clause c
  | c :: q' => render_clause c +:+ " AND " +:+ render q'
  end.

(** [f'createTime > "{date_start}" AND createTime < "{date_end}"'] *)
Definition time_filter (date_start date_end : string) : list clause :=
  [ {| op := Gt; bound := date_start |}; {| op := Lt; bound := date_end |} ].

(** One page of [service.spaces().messages().list(...)]. *)
Record response : Type := Response {
  messages : list message;
  nextPageToken : option nat;
}.

Definition chat_service : Type := string → option nat → list clause → response.

(** The [while True] loop.  [None] stands for a loop that is still asking
    for pages when the fuel is used up.  A page token that is absent or
    falsy ends the loop. *)
Fixpoint fetch_pages (service : chat_service) (space : string) (q : list clause)
    (fuel : nat) (page_token : option nat) (acc : list message) : option (list message) :=
  match fuel with
  | O => None
  | S fuel' =>
      let response := service space page_token q in
      let acc' := acc ++ messages response in
      match nextPageToken response with
      | Some (S _ as token) => fetch_pages service space q fuel' (Some token) acc'
      | _ => Some acc'
      end
  end.

Definition get_messages_for_space (service : chat_service) (fuel : nat)
    (space date_start date_end : string) : option (list message) :=
  fetch_pages service space (time_filter date_start date_end) fuel None [].

(** [get_tasks] itself. *)
Definition get_tasks (rank : string → nat) (service : chat_service) (fuel : nat)
    (space start_date end_date : string) : option (result (list task)) :=
  messages ← get_messages_for_space service fuel space start_date end_date;
  Some (get_tasks_of rank space messages).

(** *** The service

    The chat service is outside the repository.  It is modelled as a store
    of messages per space, read in pages of [page_size] messages; [instant]
    maps an RFC 3339 text to the instant it denotes.  A comparison holds of a
    message when its [createTime] stands in that relation to the bound. *)
Record store : Type := Store {
  instant : string → Z;
  stored : string → list message;
  page_size : nat;
}.

Definition compare_instants (c : comparator) (x y : Z) : bool :=
  match c with
  | Gt => (y <? x)%Z
  | Lt => (x <? y)%Z
  | Ge => (y <=? x)%Z
  | Le => (x <=? y)%Z
  end.

Definition holds (st : store) (m : message) (c : clause) : bool :=
  match createTime m with
  | Some t => compare_instants (op c) (instant st t) (instant st (bound c))
  | None => false
  end.

Definition selected (st : store) (q : list clause) (space : string) : list message :=
  List.filter (λ m, forallb (holds st m) q) (stored st space).

Definition serve (st : store) : chat_service := λ space page_token q,
  let all := selected st q space in
  let from := default 0 page_token in
  {| messages := take (page_size st) (drop from all);
     nextPageToken :=
       if from + page_size st <? length all
       then Some (from + page_size st) else None |}.

(** ** The mention scan of [get_people] *)

(** [text.split("@")[1].split("(")[0].strip()] followed by
    [assignee.split(" to")[0].strip()]. *)
Definition mention_of (text : string) : result string :=
  after <-! index (Str.split "@" text) 1;
  name <-! index (Str.split "(" after) 0;
  let assignee := Str.strip name in
  first <-! index (Str.split " to" assignee) 0;
  Ok (Str.strip first).

(** The [for message in messages] loop of [get_people] for one space.  An
    exception ends the loop, and the [except] clause keeps what the set
    holds by then. *)
Fixpoint scan_people (people : gset string) (messages : list message) : gset string :=
  match messages with
  | [] => people
  | m :: rest =>
      let people1 :=
        match sender_displayName m with
        | Some name => {[ name ]} ∪ people
        | None => people
        end in
      match text m with
      | Some text =>
          if Str.contains "via Tasks" text && Str.contains "@" text then
            match mention_of text with
            | Ok assignee => scan_people ({[ assignee ]} ∪ people1) rest
            | Raise _ => people1
            end
          else scan_people people1 rest
      | None => scan_people people1 rest
      end
  end.

(** ** [analyze_tasks] *)

(** [df.groupby('assignee').size()]: the distinct keys in sorted order, each
    with the number of rows that carry it. *)
Definition count_key (k : string) (keys : list string) : nat :=
  length (List.filter (String.eqb k) keys).

Definition groupby_size (keys : list string) : list (string * nat) :=
  (λ k, (k, count_key k keys)) <$> merge_sort String.le (remove_dups keys).

(** Reading a series at a label; a label it does not have gives NaN, which
    [fillna(0)] turns into 0. *)
Fixpoint at_label (k : string) (series : list (string * nat)) : option nat :=
  match series with
  | [] => None
  | (k', n) :: rest => if String.eqb k k' then Some n else at_label k rest
  end.

Record report_row : Type := Row {
  row_assignee : string;
  tasks_received : nat;
  tasks_completed : nat;
  completion_rate : Q;
}.

Record report : Type := Report {
  columns : list string;
  rows : list report_row;
}.

Definition schema : list string :=
  ["assignee"; "tasks_received"; "tasks_completed"; "completion_rate"].

(** [pd.concat([total_tasks, completed_tasks], axis=1).fillna(0)] with the
    rate column: the labels of the first series, then the labels that only the
    second one has, each read in both. *)
Definition joined_row (total completed : list (string * nat)) (k : string) : report_row :=
  let received := default 0 (at_label k total) in
  let done := default 0 (at_label k completed) in
  {| row_assignee := k; tasks_received := received; tasks_completed := done;
     completion_rate := Qdiv (inject_Z (Z.of_nat done)) (inject_Z (Z.of_nat received)) |}.

Definition analyze_tasks (tasks : list task) : report :=
  match tasks with
  | [] => {| columns := schema; rows := [] |}
  | _ =>
      let total_tasks := groupby_size (assignee <$> tasks) in
      let completed_tasks :=
        groupby_size (assignee <$> List.filter (λ t, String.eqb (status t) "COMPLETED") tasks) in
      let labels :=
        total_tasks.*1 ++ list_difference (completed_tasks.*1) (total_tasks.*1) in
      {| columns := schema;
         rows := joined_row total_tasks completed_tasks <$> labels |}
  end.

(** ** Vocabulary for the statements *)

(** The kinds of event, and the kind that the [if]/[elif] chain of
    [get_tasks] gives a text. *)
Inductive kind : Type := CREATED | ASSIGNED | COMPLETED | DELETED | REOPENED.

#[global] Instance kind_eq_dec : EqDecision kind.
Proof. solve_decision. Defined.

Definition kind_of (text : string) : option kind :=
  if Str.contains "Created" text then Some CREATED
  else if Str.contains "Assigned" text then Some ASSIGNED
  else if Str.contains "Completed" text then Some COMPLETED
  else if Str.contains "Deleted" text then Some DELETED
  else if Str.contains "Re-opened" text then Some REOPENED
  else None.

Definition is_event (m : message) : bool :=
  Str.contains "via Tasks" (default "" (text m)).

Definition event_kind (m : message) : option kind :=
  if is_event m then kind_of (default "" (text m)) else None.

(** An event message that the first loop can read: its thread path has the
    fourth segment, and a creation carries its time. *)
Definition readable (m : message) : bool :=
  negb (is_event m) ||
  (match task_id_of m with Ok _ => true | Raise _ => false end &&
   (negb (bool_decide (event_kind m = Some CREATED)) ||
    bool_decide (is_Some (createTime m)))).

(** The event of kind [k] on task [tid] that message [m] carries. *)
Definition carries (m : message) (k : kind) (tid : string) : Prop :=
  event_kind m = Some k ∧ task_id_of m = Ok tid.

(** The ids of the creation events of a batch, in the order of the batch. *)
Definition created_ids (messages : list message) : list string :=
  omap (λ m, match event_kind m, task_id_of m with
             | Some CREATED, Ok tid => Some tid
             | _, _ => None
             end) messages.

Definition has_kind (k : kind) (m : message) : bool :=
  bool_decide (event_kind m = Some k).

(** Cutting a text at characters. *)
Fixpoint until_any (stops : list ascii) (s : string) : string :=
  match s with
  | EmptyString => EmptyString
  | String a s' =>
      if bool_decide (a ∈ stops) then EmptyString else String a (until_any stops s')
  end.

Fixpoint after_first (c : ascii) (s : string) : option string :=
  match s with
  | EmptyString => None
  | String a s' => if Ascii.eqb a c then Some s' else after_first c s'
  end.

(** The part of [s] before the first occurrence of [sep]; all of [s] when
    there is none. *)
Fixpoint before_first (sep s : string) : string :=
  match s with
  | EmptyString => EmptyString
  | String a s' =>
      if String.prefix sep s then EmptyString else String a (before_first sep s')
  end.

(** [s] ends with [suffix]; [s] without it. *)
Fixpoint ends_with (suffix s : string) : bool :=
  String.eqb suffix s ||
  match s with
  | EmptyString => false
  | String _ s' => ends_with suffix s'
  end.

Definition without_suffix (suffix s : string) : string :=
  if ends_with suffix s
  then String.substring 0 (String.length s - String.length suffix) s
  else s.

(** The extraction as section 4.2 of the specification words it: the text
    after the first [@] up to the first following [(], trimmed, without a
    trailing [" to"]. *)
Definition spec_mention (text : string) : option string :=
  rest ← after_first "@"%char text;
  Some (without_suffix " to" (Str.strip (until_any ["("%char] rest))).

(** The place of [e] in [l]. *)
Fixpoint position (e : string) (l : list string) : nat :=
  match l with
  | [] => 0
  | x :: l' => if decide (x = e) then 0 else S (position e l')
  end.

(** Every entry that a turn adds to [assigned_tasks] comes from an
    assignment event: its thread id, an [@], and the assignee of its text. *)
Definition entry_of (m : message) (e : string) : Prop :=
  ∃ tid txt a,
    carries m ASSIGNED tid ∧ text m = Some txt ∧ assignee_of txt = Ok a ∧
    e = tid +:+ "@" +:+ a.

(** Entry [e] reads back well, and gives assignee [x] if it names [tid]. *)
Definition assigns (tid x e : string) : Prop :=
  ∃ tid' a, index (Str.split "@" e) 0 = Ok tid' ∧
            index (Str.split "@" e) 1 = Ok a ∧ (tid' = tid → a = x).

(** A message lies strictly between the two dates. *)
Definition strictly_between (st : store) (date_start date_end : string)
    (m : message) : bool :=
  match createTime m with
  | Some t =>
      (instant st date_start <? instant st t)%Z &&
      (instant st t <? instant st date_end)%Z
  | None => false
  end.

(** The interval of the specification: the start belongs to it. *)
Definition half_open (st : store) (date_start date_end : string)
    (m : message) : bool :=
  match createTime m with
  | Some t =>
      (instant st date_start <=? instant st t)%Z &&
      (instant st t <? instant st date_end)%Z
  | None => false
  end.

(** The counts of the specification. *)
Definition received_by (a : string) (tasks : list task) : nat :=
  length (filter (λ t, assignee t = a) tasks).

Definition completed_by (a : string) (tasks : list task) : nat :=
  length (filter (λ t, assignee t = a ∧ status t = "COMPLETED") tasks).

(** ** Sample batches *)

(** Test messages. *)
Definition event (thread body : string) (time : string) : message :=
  {| text := Some body; thread_name := Some thread;
     createTime := Some time; sender_displayName := None |}.

Definition T1 : string := "spaces/S/threads/T1".
Definition T2 : string := "spaces/S/threads/T2".
Definition T3 : string := "spaces/S/threads/T3".
Definition T9 : string := "spaces/S/threads/T9".

Definition twice_created : list message :=
  [ event T1 "Created a task for @Ann (via Tasks)" "2024-01-05T10:00:00Z";
    event T1 "Created a task for @Bob (via Tasks)" "2024-01-05T11:00:00Z" ].

(** Two tasks created, both deleted. *)
Definition twice_deleted : list message :=
  [ event T1 "Created a task for @Ann (via Tasks)" "2024-01-05T10:00:00Z";
    event T2 "Created a task for @Bob (via Tasks)" "2024-01-05T11:00:00Z";
    event T1 "Deleted a task (via Tasks)" "2024-01-06T10:00:00Z";
    event T2 "Deleted a task (via Tasks)" "2024-01-06T11:00:00Z" ].

Definition short_thread : message :=
  event "spaces/S" "Completed a task (via Tasks)" "2024-01-06T10:00:00Z".

Definition unknown_references : list message :=
  [ event T9 "Completed a task (via Tasks)" "2024-01-06T10:00:00Z";
    event T9 "Assigned a task to @Bob (via Tasks)" "2024-01-06T11:00:00Z";
    event T9 "Re-opened a task (via Tasks)" "2024-01-06T12:00:00Z";
    event T9 "Deleted a task (via Tasks)" "2024-01-06T13:00:00Z";
    event T1 "Created a task for @Ann (via Tasks)" "2024-01-05T10:00:00Z" ].

Definition bare_assignment : list message :=
  [ event T2 "Created a task for @Alice (via Tasks)" "2024-01-05T10:00:00Z";
    event T2 "Assigned a task (via Tasks)" "2024-01-06T10:00:00Z" ].

(** The iteration that visits ["T2@Bob"] last. *)
Definition bob_last (e : string) : nat := if String.eqb e "T2@Bob" then 1 else 0.

(** An instant for the texts of the shape [YYYY-MM-DDThh:mm:ssZ]: their
    digits read as one number, which orders them as the instants do. *)
Definition digit_of (c : ascii) : option Z :=
  let n := nat_of_ascii c in
  if (48 <=? n) && (n <=? 57) then Some (Z.of_nat (n - 48)) else None.

Fixpoint digits_value (acc : Z) (s : string) : Z :=
  match s with
  | EmptyString => acc
  | String c s' =>
      digits_value (match digit_of c with
                    | Some d => (10 * acc + d)%Z
                    | None => acc
                    end) s'
  end.

Definition posted (time : string) : message :=
  {| text := Some "hello"; thread_name := Some "spaces/S/threads/T1";
     createTime := Some time; sender_displayName := Some "Ann" |}.

Definition january : store :=
  {| instant := digits_value 0;
     stored := λ _, [ posted "2024-01-01T00:00:00Z";
                      posted "2024-01-15T12:00:00Z";
                      posted "2024-01-20T08:30:00Z";
                      posted "2024-02-01T00:00:00Z" ];
     page_size := 1 |}.

(** * The other functions of the module *)

(** ** [retry_on_error] *)

(** What a call of the wrapper comes to: [inl e] when it raises [e],
    [inr (Some v)] when it returns [v], [inr None] when it falls out of the
    loop and returns [None]; with the number of calls of [func] and the
    seconds slept. *)
Record retried (E A : Type) : Type := Retried {
  outcome : E + option A;
  calls : nat;
  slept : nat;
}.
Arguments Retried {E A} _ _ _.
Arguments outcome {E A} _.
Arguments calls {E A} _.
Arguments slept {E A} _.

(** The [while retries < max_retries] loop of [wrapper].  [max_retries] is
    any integer, negative ones included; [retries] counts up from 0; [delay]
    is a number of seconds that [time.sleep] takes, so not a negative one.
    [func k] is what the call number [k] of the decorated function does.
    [None] stands for a loop still running when the fuel is used up. *)
Fixpoint retry_loop {E A : Type} (max_retries : Z) (delay : nat) (func : nat → E + A)
    (fuel retries waited : nat) : option (retried E A) :=
  match fuel with
  | O => None
  | S fuel' =>
      if (Z.of_nat retries <? max_retries)%Z then
        match func retries with
        | inr v => Some (Retried (inr (Some v)) (S retries) waited)
        | inl e =>
            let retries' := S retries in
            if (Z.of_nat retries' =? max_retries)%Z
            then Some (Retried (inl e) retries' waited)
            else retry_loop max_retries delay func fuel' retries' (waited + delay)
        end
      else Some (Retried (inr None) retries waited)
  end.

Definition retry_on_error {E A : Type} (max_retries : Z) (delay : nat)
    (func : nat → E + A) : option (retried E A) :=
  retry_loop max_retries delay func (S (Z.to_nat max_retries)) 0 0.

(** ** [get_spaces] *)

(** A space record of the chat API, with the keys the source reads. *)
Record chat_space : Type := ChatSpace {
  space_id : string;
  spaceType : option string;
  displayName : option string;
}.

(** One page of [service.spaces().list(...)]. *)
Record spaces_page : Type := SpacesPage {
  spaces : list chat_space;
  spaces_token : option nat;
}.

Definition spaces_service : Type := option nat → spaces_page.

(** [space.get('spaceType') != 'SPACE'] is false. *)
Definition is_SPACE (sp : chat_space) : bool :=
  bool_decide (spaceType sp = Some "SPACE").

Fixpoint get_spaces_from (service : spaces_service) (fuel : nat)
    (page_token : option nat) (acc : list chat_space) : option (list chat_space) :=
  match fuel with
  | O => None
  | S fuel' =>
      let response := service page_token in
      let acc' := acc ++ List.filter is_SPACE (spaces response) in
      match spaces_token response with
      | Some (S _ as token) => get_spaces_from service fuel' (Some token) acc'
      | _ => Some acc'
      end
  end.

Definition get_spaces (service : spaces_service) (fuel : nat) : option (list chat_space) :=
  get_spaces_from service fuel None [].

(** The service as a list of spaces read in pages of [n]. *)
Definition serve_spaces (all : list chat_space) (n : nat) : spaces_service :=
  λ page_token,
  let from := default 0 page_token in
  {| spaces := take n (drop from all);
     spaces_token := if from + n <? length all then Some (from + n) else None |}.

(** ** [get_people] *)

(** The [for space in spaces] loop: a space that is not of type [SPACE] is
    passed over; the others are scanned into the one set. *)
Fixpoint get_people_from (service : chat_service) (fuel : nat)
    (start_date end_date : string) (people : gset string)
    (l : list chat_space) : option (gset string) :=
  match l with
  | [] => Some people
  | sp :: rest =>
      if is_SPACE sp then
        msgs ← get_messages_for_space service fuel (space_id sp) start_date end_date;
        get_people_from service fuel start_date end_date (scan_people people msgs) rest
      else get_people_from service fuel start_date end_date people rest
  end.

(** [return list(people)]: the set, in its iteration order. *)
Definition get_people (rank : string → nat) (service : chat_service) (fuel : nat)
    (l : list chat_space) (start_date end_date : string) : option (list string) :=
  people ← get_people_from service fuel start_date end_date ∅ l;
  Some (iterate rank people).

(** ** [normalize_name] and [filter_tasks] *)

(** The decomposition tables of [unicodedata] are not part of the module:
    [nfkd c] is the full compatibility decomposition of the character [c], as
    code points.  Decomposition works character by character, and the
    reordering of combining marks that follows it never moves a code point
    below 128, so the ASCII code points of the normal form are those of the
    decompositions, in order. *)
Definition ascii_ignore (points : list N) : list ascii :=
  ascii_of_N <$> filter (λ n, (n < 128)%N) points.

(** [c.lower()] on a code point below 128. *)
Definition lower (c : ascii) : ascii :=
  let n := nat_of_ascii c in
  if (65 <=? n) && (n <=? 90) then ascii_of_nat (n + 32) else c.

Definition normalize_name (nfkd : ascii → list N) (name : string) : string :=
  let normalized := String.list_ascii_of_string name ≫= nfkd in
  let decoded := ascii_ignore normalized in
  Str.strip (String.string_of_list_ascii (lower <$> decoded)).

Definition filter_tasks (nfkd : ascii → list N) (l : list task)
    (people : list string) (space_names : list string) : list task :=
  let normalized_people : gset string := list_to_set (normalize_name nfkd <$> people) in
  let normalized_spaces : gset string := list_to_set space_names in
  filter (λ t, normalize_name nfkd (assignee t) ∈ normalized_people ∧
               space_name t ∈ normalized_spaces) l.

(** ** [get_default_dates] *)

Record datetime : Type := DateTime {
  year : nat;
  month : nat;
  day : nat;
  hour : nat;
  minute : nat;
  second : nat;
  microsecond : nat;
}.

Definition is_leap (y : nat) : bool :=
  (y mod 4 =? 0) && (negb (y mod 100 =? 0) || (y mod 400 =? 0)).

Definition days_in_month (y m : nat) : nat :=
  match m with
  | 2 => if is_leap y then 29 else 28
  | 4 | 6 | 9 | 11 => 30
  | _ => 31
  end.

(** [t.replace(day=d)] *)
Definition replace_day (d : nat) (t : datetime) : datetime :=
  {| year := year t; month := month t; day := d; hour := hour t;
     minute := minute t; second := second t; microsecond := microsecond t |}.

(** [t - timedelta(days=1)]; [None] is the [OverflowError] of a date before
    year 1. *)
Definition minus_one_day (t : datetime) : option datetime :=
  if 1 <? day t then Some (replace_day (day t - 1) t)
  else if 1 <? month t then
    Some {| year := year t; month := month t - 1;
            day := days_in_month (year t) (month t - 1); hour := hour t;
            minute := minute t; second := second t; microsecond := microsecond t |}
  else if 1 <? year t then
    Some {| year := year t - 1; month := 12; day := 31; hour := hour t;
            minute := minute t; second := second t; microsecond := microsecond t |}
  else None.

(** [n] in [width] decimal digits, as [%0{width}d] prints a number that
    fits. *)
Fixpoint zero_padded (width n : nat) : string :=
  match width with
  | O => EmptyString
  | S w => zero_padded w (n / 10) +:+ String (ascii_of_nat (48 + n mod 10)) EmptyString
  end.

(** [t.isoformat()] *)
Definition isoformat (t : datetime) : string :=
  zero_padded 4 (year t) +:+ "-" +:+ zero_padded 2 (month t) +:+ "-" +:+
  zero_padded 2 (day t) +:+ "T" +:+ zero_padded 2 (hour t) +:+ ":" +:+
  zero_padded 2 (minute t) +:+ ":" +:+ zero_padded 2 (second t) +:+
  (if microsecond t =? 0 then "" else "." +:+ zero_padded 6 (microsecond t)).

(** [get_default_dates], with [datetime.today()] as its argument. *)
Definition get_default_dates (today : datetime) : option (string * string) :=
  let first_day_of_month := replace_day 1 today in
  last_day_of_previous_month ← minus_one_day first_day_of_month;
  let first_day_of_previous_month := replace_day 1 last_day_of_previous_month in
  Some (isoformat first_day_of_previous_month +:+ "Z",
        isoformat last_day_of_previous_month +:+ "Z").

(** ** [format_task_info] and [get_formatted_tasks] *)

Record formatted_task : Type := Formatted {
  f_id : string;
  f_assignee : string;
  f_status : string;
  f_space : string;
  f_created_at : string;
  f_last_updated : string;
}.

(** A task of [get_tasks] has all its keys and no [last_update_time], so
    the defaults of the [get] calls are the creation time and nothing else. *)
Definition format_task_info (t : task) (space : string) : formatted_task :=
  {| f_id := id t; f_assignee := assignee t; f_status := status t;
     f_space := space; f_created_at := created_time t;
     f_last_updated := created_time t |}.

(** The loop of [get_formatted_tasks]: an exception of [get_tasks] is logged
    and the loop goes on to the next space. *)
Fixpoint get_formatted_tasks (rank : string → nat) (service : chat_service)
    (fuel : nat) (l : list chat_space) (start_date end_date : string)
    : option (list formatted_task) :=
  match l with
  | [] => Some []
  | sp :: rest =>
      let shown := default (space_id sp) (displayName sp) in
      r ← get_tasks rank service fuel (space_id sp) start_date end_date;
      later ← get_formatted_tasks rank service fuel rest start_date end_date;
      match r with
      | Ok ts => Some (((λ t, format_task_info t shown) <$> ts) ++ later)
      | Raise _ => Some later
      end
  end.

(** ** The task loop of the [report] command *)

(** [for space in spaces: all_tasks.extend(get_tasks(...))]: here an
    exception of [get_tasks] is not caught. *)
Fixpoint fetch_all_tasks (rank : string → nat) (service : chat_service)
    (fuel : nat) (l : list chat_space) (start_date end_date : string)
    : option (result (list task)) :=
  match l with
  | [] => Some (Ok [])
  | sp :: rest =>
      r ← get_tasks rank service fuel (space_id sp) start_date end_date;
      match r with
      | Raise e => Some (Raise e)
      | Ok ts =>
          later ← fetch_all_tasks rank service fuel rest start_date end_date;
          Some (ts' <-! later; Ok (ts ++ ts'))
      end
  end.

(** ** Vocabulary for the other functions *)

(** Message [m] brings the name [x] into the set of [get_people]: as its
    sender, or as the mention of its task text. *)
Definition named_in (m : message) (x : string) : Prop :=
  sender_displayName m = Some x ∨
  ∃ txt, text m = Some txt ∧ Str.contains "via Tasks" txt = true ∧
         Str.contains "@" txt = true ∧ mention_of txt = Ok x.

(** ** Auxiliary predicates and sample data *)

Definition three_spaces : list chat_space :=
  [ {| space_id := "spaces/A"; spaceType := Some "SPACE"; displayName := Some "Team" |};
    {| space_id := "spaces/B"; spaceType := Some "DIRECT_MESSAGE"; displayName := None |};
    {| space_id := "spaces/C"; spaceType := None; displayName := None |} ].

(** Task [t] is what the first loop makes of the creation message [m]. *)
Definition created_by (space : string) (m : message) (t : task) : Prop :=
  carries m CREATED (id t) ∧ createTime m = Some (created_time t) ∧
  space_name t = space ∧ status t = "OPEN".

(** Task [x] is task [y] after updates of the second loop. *)
Definition derived (y x : task) : Prop :=
  id x = id y ∧ created_time x = created_time y ∧ space_name x = space_name y ∧
  (status x = status y ∨ status x = "COMPLETED" ∨ status x = "OPEN").

(** Two states of the first loop that differ at most in the reopened set. *)
Definition same_but_reopened (b1 b2 : buckets) : Prop :=
  tasks b1 = tasks b2 ∧ completed_tasks b1 = completed_tasks b2 ∧
  deleted_tasks b1 = deleted_tasks b2 ∧ assigned_tasks b1 = assigned_tasks b2.

Definition not_reopening (m : message) : Prop := event_kind m ≠ Some REOPENED.

#[global] Instance not_reopening_dec m : Decision (not_reopening m).
Proof. unfold not_reopening. apply _. Defined.

Definition reopened_batch : list message :=
  [ event T3 "Created a task for @Ann (via Tasks)" "2024-01-05T10:00:00Z";
    event T3 "Completed a task (via Tasks)" "2024-01-06T10:00:00Z";
    event T3 "Re-opened a task (via Tasks)" "2024-01-07T10:00:00Z" ].

Definition marked (m : message) : Prop := is_event m = true.

#[global] Instance marked_dec m : Decision (marked m).
Proof. unfold marked. apply _. Defined.

Definition timeless_creation : message :=
  {| text := Some "Created a task for @Ann (via Tasks)"; thread_name := Some T1;
     createTime := None; sender_displayName := None |}.

Definition three_tasks : list task :=
  [ {| id := "1"; assignee := "B"; status := "COMPLETED";
       created_time := ""; space_name := "" |};
    {| id := "2"; assignee := "A"; status := "OPEN";
       created_time := ""; space_name := "" |};
    {| id := "3"; assignee := "A"; status := "COMPLETED";
       created_time := ""; space_name := "" |} ].

(** A code point below 128 that is no capital letter. *)
Definition plain_lower (c : ascii) : Prop :=
  nat_of_ascii c < 128 ∧ ¬ (65 ≤ nat_of_ascii c ≤ 90).

(** The decomposition that leaves every code point as it is; it is the
    decomposition of the code points below 128. *)
Definition no_decomposition (c : ascii) : list N := [N_of_ascii c].

(** The assignee of [t] has the normal form of one of the [people], as
    [filter_tasks] tests it. *)
Definition known (nfkd : ascii → list N) (people : list string) (t : task) : Prop :=
  normalize_name nfkd (assignee t) ∈
    (list_to_set (normalize_name nfkd <$> people) : gset string).

#[global] Instance known_dec nfkd people t : Decision (known nfkd people t).
Proof. unfold known. apply _. Defined.

(** A store with task events in two spaces; the thread of the event in
    ["spaces/B"] is too short to hold a task id. *)
Definition two_rooms : store :=
  {| instant := digits_value 0;
     stored := λ space,
       if String.eqb space "spaces/B"
       then [ event "spaces/B" "Completed a task (via Tasks)" "2024-01-06T10:00:00Z" ]
       else [ event T1 "Created a task for @Ann Lee (via Tasks)" "2024-01-05T10:00:00Z";
              event T1 "Completed a task (via Tasks)" "2024-01-09T10:00:00Z" ];
     page_size := 10 |}.

Definition room (name : string) : chat_space :=
  {| space_id := name; spaceType := Some "SPACE"; displayName := Some "Team" |}.

(** * Facts about the [str] methods *)

Section StrFacts.

Implicit Types (c a : ascii) (s sep : string).

Lemma prefix_char c a s :
  String.prefix (String c EmptyString) (String a s) = Ascii.eqb a c.
Proof.
  simpl. destruct (ascii_dec c a) as [->|Hne].
  - rewrite Ascii.eqb_refl. by destruct s.
  - symmetry. apply Ascii.eqb_neq. congruence.
Qed.

Lemma until_any_single c a s :
  until_any [c] (String a s) =
  if Ascii.eqb a c then EmptyString else String a (until_any [c] s).
Proof.
  simpl. destruct (Ascii.eqb_spec a c) as [->|Hne].
  - rewrite bool_decide_eq_true_2; [done | set_solver].
  - rewrite bool_decide_eq_false_2; [done | set_solver].
Qed.

(** Splitting at a character: the text before its first occurrence, then
    the split of what follows it. *)
Lemma split_from_char c s :
  Str.split_from (String c EmptyString) 0 s =
  (until_any [c] s,
   match after_first c s with
   | Some r => Str.split (String c EmptyString) r
   | None => []
   end).
Proof.
  induction s as [|a s IH]; [done|].
  rewrite until_any_single.
  cbn [Str.split_from after_first]. rewrite prefix_char.
  destruct (Ascii.eqb a c).
  - cbn [String.length Nat.sub]. unfold Str.split.
    by destruct (Str.split_from (String c EmptyString) 0 s).
  - by rewrite IH.
Qed.

Lemma split_char c s :
  Str.split (String c EmptyString) s =
  until_any [c] s ::
  match after_first c s with
  | Some r => Str.split (String c EmptyString) r
  | None => []
  end.
Proof. unfold Str.split at 1. by rewrite split_from_char. Qed.

Lemma contains_char c s :
  Str.contains (String c EmptyString) s = bool_decide (is_Some (after_first c s)).
Proof.
  induction s as [|a s IH]; [done|].
  cbn [Str.contains after_first]. rewrite prefix_char, IH.
  destruct (Ascii.eqb a c); [|done].
  symmetry. apply bool_decide_eq_true_2. by eexists.
Qed.

Lemma contains_char_true c s :
  Str.contains (String c EmptyString) s = true → ∃ r, after_first c s = Some r.
Proof. rewrite contains_char. intros [r Hr]%bool_decide_eq_true. eauto. Qed.

Lemma contains_char_false c s :
  Str.contains (String c EmptyString) s = false → after_first c s = None.
Proof.
  rewrite contains_char. intros H%bool_decide_eq_false.
  destruct (after_first c s); [|done]. destruct H. by eexists.
Qed.

Lemma until_any_twice c1 c2 s :
  until_any [c2] (until_any [c1] s) = until_any [c1; c2] s.
Proof.
  induction s as [|a s IH]; [done|].
  rewrite until_any_single. cbn [until_any].
  destruct (Ascii.eqb_spec a c1) as [->|H1].
  - rewrite bool_decide_eq_true_2; [done | set_solver].
  - rewrite until_any_single.
    destruct (Ascii.eqb_spec a c2) as [->|H2].
    + rewrite bool_decide_eq_true_2; [done | set_solver].
    + rewrite bool_decide_eq_false_2; [by rewrite IH | set_solver].
Qed.

(** The first piece of a split, for any separator. *)
Lemma split_from_first sep s :
  (Str.split_from sep 0 s).1 = before_first sep s.
Proof.
  induction s as [|a s IH]; [done|].
  cbn [Str.split_from before_first].
  destruct (String.prefix sep (String a s)).
  - by destruct (Str.split_from sep (String.length sep - 1) s).
  - destruct (Str.split_from sep 0 s); simpl in *. by rewrite IH.
Qed.

Lemma index_split_0 sep s : index (Str.split sep s) 0 = Ok (before_first sep s).
Proof.
  unfold Str.split. rewrite <- split_from_first.
  by destruct (Str.split_from sep 0 s).
Qed.

Lemma before_first_absent sep s :
  Str.contains sep s = false → before_first sep s = s.
Proof.
  induction s as [|a s IH]; [done|].
  cbn [Str.contains before_first].
  intros [-> H]%orb_false_iff. by rewrite IH.
Qed.

Lemma before_first_char c s : before_first (String c EmptyString) s = until_any [c] s.
Proof. by rewrite <- split_from_first, split_from_char. Qed.

(** The second piece of a split at a character that occurs. *)
Lemma index_split_1 c s r :
  after_first c s = Some r →
  index (Str.split (String c EmptyString) s) 1 = Ok (until_any [c] r).
Proof. intros H. rewrite split_char, H. by rewrite (split_char c r). Qed.

Lemma append_nil s : EmptyString +:+ s = s.
Proof. reflexivity. Qed.

Lemma append_cons a s1 s2 : String a s1 +:+ s2 = String a (s1 +:+ s2).
Proof. reflexivity. Qed.

Lemma after_first_app c s r :
  after_first c s = None →
  after_first c (s +:+ String c r) = Some r ∧ until_any [c] (s +:+ String c r) = s.
Proof.
  induction s as [|a s IH].
  - intros _. rewrite append_nil, until_any_single. cbn [after_first].
    by rewrite Ascii.eqb_refl.
  - rewrite append_cons, until_any_single. cbn [after_first].
    destruct (Ascii.eqb a c); [done|].
    intros H. destruct (IH H) as [-> ->]. done.
Qed.

Lemma after_first_app_some c s r : is_Some (after_first c (s +:+ String c r)).
Proof.
  induction s as [|a s IH].
  - rewrite append_nil. cbn. rewrite Ascii.eqb_refl. by eexists.
  - rewrite append_cons. cbn [after_first].
    destruct (Ascii.eqb a c); [by eexists | done].
Qed.

(** Texts without a given character. *)
Lemma after_first_until c stops s :
  c ∈ stops → after_first c (until_any stops s) = None.
Proof.
  intros Hc. induction s as [|a s IH]; [done|].
  cbn [until_any]. case_bool_decide as Ha; [done|].
  cbn [after_first]. destruct (Ascii.eqb_spec a c) as [->|_]; done.
Qed.

Lemma after_first_lstrip c s :
  after_first c s = None → after_first c (Str.lstrip s) = None.
Proof.
  induction s as [|a s IH]; [done|].
  cbn [Str.lstrip]. destruct (Str.isspace a); [|done].
  cbn [after_first]. destruct (Ascii.eqb a c); [done | auto].
Qed.

Lemma after_first_rstrip c s :
  after_first c s = None → after_first c (Str.rstrip s) = None.
Proof.
  induction s as [|a s IH]; [done|].
  cbn [Str.rstrip after_first].
  destruct (Ascii.eqb a c) eqn:Hac; [done|]. intros H%IH.
  destruct (Str.rstrip s) as [|b r].
  - destruct (Str.isspace a); [done|]. cbn [after_first]. by rewrite Hac.
  - cbn [after_first] in *. by rewrite Hac.
Qed.

Lemma after_first_strip c s :
  after_first c s = None → after_first c (Str.strip s) = None.
Proof. intros H. by apply after_first_rstrip, after_first_lstrip. Qed.

Lemma until_any_absent c s : after_first c s = None → until_any [c] s = s.
Proof.
  induction s as [|a s IH]; [done|].
  rewrite until_any_single. cbn [after_first].
  destruct (Ascii.eqb a c); [done|]. intros H. by rewrite IH.
Qed.

End StrFacts.

(** * The assignee mention *)

Lemma assignee_of_mention text rest :
  after_first "@"%char text = Some rest →
  assignee_of text = Ok (Str.strip (until_any ["@"; "("]%char rest)).
Proof.
  intros H. unfold assignee_of.
  rewrite contains_char, bool_decide_eq_true_2 by (by eexists).
  rewrite (index_split_1 _ _ _ H). cbn [rbind].
  rewrite index_split_0. cbn [rbind].
  by rewrite before_first_char, until_any_twice.
Qed.

Lemma mention_of_mention text rest :
  after_first "@"%char text = Some rest →
  mention_of text =
  Ok (Str.strip (before_first " to" (Str.strip (until_any ["@"; "("]%char rest)))).
Proof.
  intros H. unfold mention_of.
  rewrite (index_split_1 _ _ _ H). cbn [rbind].
  rewrite index_split_0. cbn [rbind].
  rewrite index_split_0. cbn [rbind].
  by rewrite before_first_char, until_any_twice.
Qed.

Lemma assignee_of_total text : is_ok (assignee_of text).
Proof.
  unfold assignee_of. destruct (Str.contains "@" text) eqn:H; [|by eexists].
  apply contains_char_true in H as [r Hr].
  rewrite (index_split_1 _ _ _ Hr). cbn [rbind].
  rewrite index_split_0. by eexists.
Qed.

(** The assignee that [get_tasks] reads never holds an [@]. *)
Lemma assignee_of_plain text a :
  assignee_of text = Ok a → after_first "@"%char a = None.
Proof.
  unfold assignee_of. destruct (Str.contains "@" text) eqn:H.
  - apply contains_char_true in H as [r Hr].
    pose proof (assignee_of_mention text r Hr) as Ha.
    unfold assignee_of in Ha. rewrite contains_char, bool_decide_eq_true_2 in Ha
      by (by eexists).
    rewrite Ha. intros ?; simplify_eq.
    apply after_first_strip, after_first_until. set_solver.
  - by intros ?; simplify_eq.
Qed.

Lemma ends_with_length suffix s :
  ends_with suffix s = true → String.length suffix ≤ String.length s.
Proof.
  induction s as [|a s IH]; cbn [ends_with].
  - rewrite orb_false_r. by intros ->%String.eqb_eq.
  - intros [->%String.eqb_eq|H]%orb_true_iff; [done|].
    cbn [String.length]. specialize (IH H). lia.
Qed.

(** A text that ends with [suffix] is what is left without it, followed by
    [suffix]. *)
Lemma without_suffix_split suffix s :
  ends_with suffix s = true → s = without_suffix suffix s +:+ suffix.
Proof.
  unfold without_suffix. intros H. rewrite H.
  induction s as [|a s IH]; cbn [ends_with] in H.
  - rewrite orb_false_r in H. apply String.eqb_eq in H as ->. done.
  - apply orb_true_iff in H as [->%String.eqb_eq|H].
    + by rewrite Nat.sub_diag.
    + pose proof (ends_with_length _ _ H) as Hlen.
      cbn [String.length].
      replace (S (String.length s) - String.length suffix)
        with (S (String.length s - String.length suffix)) by lia.
      cbn [String.substring]. rewrite append_cons. f_equal. by apply IH.
Qed.

(** No [" to"] begins in a text that holds none and runs on into a
    [" to"] that follows it. *)
Lemma before_first_to base :
  Str.contains " to" base = false → before_first " to" (base +:+ " to") = base.
Proof.
  induction base as [|a s IH]; [done|].
  cbn [Str.contains]. intros [Hp Hs]%orb_false_iff.
  rewrite append_cons. cbn [before_first]. rewrite (IH Hs).
  assert (String.prefix " to" (String a (s +:+ " to")) = false) as ->; [|done].
  clear IH Hs. cbn [String.prefix] in *.
  destruct (ascii_dec " " a) as [_|]; [|done].
  destruct s as [|b s]; [done|]. rewrite append_cons. cbn [String.prefix] in *.
  destruct (ascii_dec "t" b) as [_|]; [|done].
  destruct s as [|c s]; [done|]. rewrite append_cons. cbn [String.prefix] in *.
  destruct (ascii_dec "o" c) as [_|]; [|done].
  by destruct s.
Qed.

(** Cutting at the first [" to"] takes off a trailing [" to"], and nothing
    else, when no [" to"] comes before it. *)
Lemma before_first_without_suffix s :
  Str.contains " to" (without_suffix " to" s) = false →
  before_first " to" s = without_suffix " to" s.
Proof.
  intros H. destruct (ends_with " to" s) eqn:He.
  - rewrite (without_suffix_split " to" s He) at 1. by apply before_first_to.
  - unfold without_suffix in *. rewrite He in *. by apply before_first_absent.
Qed.

(** C5, as amended.  In a text with an [@] the mention is the stretch after
    the first [@] up to the next [@] or [(], or to the end of the text,
    trimmed, and the name is the mention without a trailing [" to"].
    [get_tasks] takes the name as the assignee when the mention does not end
    in [" to"]; [get_people] takes the name, trimmed again, when the name
    holds no [" to"].  In a text without [@], [get_tasks] takes
    ["Unassigned"]. *)
Theorem mention_extraction (text : string) :
  (Str.contains "@" text = true →
   ∃ rest, after_first "@"%char text = Some rest ∧
     let mention := Str.strip (until_any ["@"; "("]%char rest) in
     let name := without_suffix " to" mention in
     (ends_with " to" mention = false → assignee_of text = Ok name) ∧
     (Str.contains " to" name = false → mention_of text = Ok (Str.strip name))) ∧
  (Str.contains "@" text = false → assignee_of text = Ok "Unassigned").
Proof.
  split.
  - intros [rest Hrest]%contains_char_true. exists rest.
    split; [done|]. cbv zeta. split.
    + intros He. unfold without_suffix. rewrite He.
      by apply assignee_of_mention.
    + intros Hname. rewrite <- (before_first_without_suffix _ Hname).
      by apply mention_of_mention.
  - intros H. unfold assignee_of. by rewrite H.
Qed.

Lemma mention_extraction_witness :
  assignee_of "Created a task for @Ann Lee (via Tasks)" = Ok "Ann Lee" ∧
  mention_of "Created a task for @Ann Lee (via Tasks)" = Ok "Ann Lee" ∧
  mention_of "Assigned a task to @Bob to (via Tasks)" = Ok "Bob" ∧
  assignee_of "Created a task (via Tasks)" = Ok "Unassigned".
Proof.
  split; [|split; [|split]].
  - destruct (proj1 (mention_extraction "Created a task for @Ann Lee (via Tasks)")
                eq_refl) as (rest & Hrest & Htasks & _).
    injection Hrest as <-. apply Htasks. reflexivity.
  - destruct (proj1 (mention_extraction "Created a task for @Ann Lee (via Tasks)")
                eq_refl) as (rest & Hrest & _ & Hpeople).
    injection Hrest as <-. apply Hpeople. reflexivity.
  - destruct (proj1 (mention_extraction "Assigned a task to @Bob to (via Tasks)")
                eq_refl) as (rest & Hrest & _ & Hpeople).
    injection Hrest as <-. apply Hpeople. reflexivity.
  - apply (proj2 (mention_extraction "Created a task (via Tasks)")).
    reflexivity.
Defined.

(** The scan of [get_people] on one message: the sender and the mention. *)
Example scan_people_example :
  elements (scan_people ∅
    [ {| text := Some "Assigned a task to @Bob to Space (via Tasks)";
         thread_name := Some T1; createTime := Some "2024-01-06T10:00:00Z";
         sender_displayName := Some "Ann" |} ])
  = ["Ann"; "Bob"].
Proof. reflexivity. Qed.

(** C5, as stated, fails.  A mail address in the task text ends the mention
    at its [@], before the parenthesis, in both scans.  [get_tasks] leaves a
    trailing [" to"] where it is.  [get_people] cuts at a [" to"] inside the
    mention, not only at one that ends it, and trims what is left. *)
Lemma mention_extraction_counterexample :
  let mail := "Created for @Ann: mail bob@example.com (via Tasks)" in
  let trailing := "Assigned a task to @Bob to (via Tasks)" in
  let inner := "Created for @Al tony (via Tasks)" in
  let spaced := "Assigned a task to @Bob  to (via Tasks)" in
  spec_mention mail = Some "Ann: mail bob@example.com" ∧
  assignee_of mail = Ok "Ann: mail bob" ∧
  mention_of mail = Ok "Ann: mail bob" ∧
  spec_mention trailing = Some "Bob" ∧
  assignee_of trailing = Ok "Bob to" ∧
  spec_mention inner = Some "Al tony" ∧
  mention_of inner = Ok "Al" ∧
  spec_mention spaced = Some "Bob " ∧
  mention_of spaced = Ok "Bob".
Proof. repeat split; reflexivity. Qed.

(** * The first loop *)

(** Case analysis on one turn of the first loop. *)
Ltac collect_cases :=
  unfold collect, carries, created_ids, readable, event_kind, is_event, kind_of,
    is_ok, rbind, getitem in *;
  cbn [omap] in *;
  repeat (case_match; simplify_eq/=; try done);
  try congruence.

Lemma collect_not_event space b m :
  is_event m = false → collect space b m = Ok b.
Proof. intros H. unfold collect. unfold is_event in H. by rewrite H. Qed.

Lemma collect_raises space b m e :
  is_event m = true → task_id_of m = Raise e → collect space b m = Raise e.
Proof. intros H1 H2. unfold collect. unfold is_event in H1. by rewrite H1, H2. Qed.

Lemma collect_ids space b m b' :
  collect space b m = Ok b' →
  id <$> tasks b' = (id <$> tasks b) ++ created_ids [m].
Proof.
  intros H. collect_cases; rewrite ?fmap_app, ?app_nil_r; done.
Qed.

Lemma collect_total space b m :
  readable m = true → is_ok (collect space b m).
Proof.
  intros H. pose proof (assignee_of_total (default "" (text m))) as [a Ha].
  collect_cases; eauto.
Qed.

Lemma collect_deleted space b m b' :
  collect space b m = Ok b' →
  event_kind m ≠ Some DELETED →
  deleted_tasks b' = deleted_tasks b.
Proof. intros H Hk. collect_cases. Qed.

Lemma collect_assigned space b m b' e :
  collect space b m = Ok b' →
  e ∈ assigned_tasks b' ↔ e ∈ assigned_tasks b ∨ entry_of m e.
Proof.
  intros H. unfold entry_of.
  collect_cases;
    try (split; [by left | intros [?|(?&?&?&[??]&?)]; simplify_eq; congruence]).
  rewrite elem_of_union, elem_of_singleton. split.
  - intros [->|?]; [right|by left]. eauto 10.
  - intros [?|(?&?&?&[??]&?&?&?)]; simplify_eq; [by right|left; congruence].
Qed.

Lemma collect_all_app space b l1 l2 :
  collect_all space b (l1 ++ l2) =
  (b' <-! collect_all space b l1; collect_all space b' l2).
Proof.
  revert b. induction l1 as [|m l1 IH]; intros b; [done|].
  cbn [collect_all app]. destruct (collect space b m); cbn [rbind]; auto.
Qed.

Lemma created_ids_cons m l : created_ids (m :: l) = created_ids [m] ++ created_ids l.
Proof. unfold created_ids. simpl. by repeat case_match. Qed.

Lemma collect_all_ids space b l b' :
  collect_all space b l = Ok b' →
  id <$> tasks b' = (id <$> tasks b) ++ created_ids l.
Proof.
  revert b. induction l as [|m l IH]; intros b H; simplify_eq/=.
  - by rewrite app_nil_r.
  - destruct (collect space b m) as [b1|] eqn:Hm; simplify_eq/=.
    by rewrite (IH _ H), (collect_ids _ _ _ _ Hm), <- app_assoc, <- created_ids_cons.
Qed.

Lemma collect_all_total space b l :
  forallb readable l = true → is_ok (collect_all space b l).
Proof.
  revert b. induction l as [|m l IH]; intros b H; [by eexists|].
  cbn in H. apply andb_true_iff in H as [Hm Hl].
  destruct (collect_total space b m Hm) as [b1 Hb1].
  cbn [collect_all]. rewrite Hb1. cbn [rbind]. auto.
Qed.

Lemma collect_all_deleted space b l b' :
  collect_all space b l = Ok b' →
  (∀ m, m ∈ l → event_kind m ≠ Some DELETED) →
  deleted_tasks b' = deleted_tasks b.
Proof.
  revert b. induction l as [|m l IH]; intros b H Hl; simplify_eq/=; [done|].
  destruct (collect space b m) as [b1|] eqn:Hm; simplify_eq/=.
  rewrite (IH _ H) by (intros; apply Hl; set_solver).
  eapply collect_deleted; [done|]. apply Hl. set_solver.
Qed.

Lemma collect_all_assigned space b l b' e :
  collect_all space b l = Ok b' →
  e ∈ assigned_tasks b' ↔ e ∈ assigned_tasks b ∨ ∃ m, m ∈ l ∧ entry_of m e.
Proof.
  revert b. induction l as [|m l IH]; intros b H; simplify_eq/=.
  - set_solver.
  - destruct (collect space b m) as [b1|] eqn:Hm; simplify_eq/=.
    rewrite (IH _ H), (collect_assigned _ _ _ _ e Hm). set_solver.
Qed.

(** A message that cannot be read makes the loop raise. *)
Lemma collect_all_raises space b l m e :
  m ∈ l → is_event m = true → task_id_of m = Raise e →
  ∃ e', collect_all space b l = Raise e'.
Proof.
  revert b. induction l as [|m' l IH]; intros b Hin Hev He; [by inversion Hin|].
  cbn [collect_all].
  destruct (collect space b m') as [b1|e1] eqn:Hm'; cbn [rbind]; [|eauto].
  apply elem_of_cons in Hin as [->|Hin]; [|eauto].
  by rewrite (collect_raises _ _ _ _ Hev He) in Hm'.
Qed.

(** * The second loop *)

Lemma list_elem_of_insert_inv {A} (l : list A) (i : nat) (x y : A) :
  x ∈ <[i := y]> l → x = y ∨ x ∈ l.
Proof.
  intros [j Hj]%list_elem_of_lookup.
  apply list_lookup_insert_Some in Hj as [(_ & -> & _)|[_ Hj]]; [by left|].
  right. by eapply list_elem_of_lookup_2.
Qed.

Lemma elem_of_iterate rank (X : gset string) e : e ∈ iterate rank X ↔ e ∈ X.
Proof. unfold iterate. by rewrite merge_sort_Permutation, elem_of_elements. Qed.

#[local] Instance rank_le_trans rank : Transitive (rank_le rank).
Proof. unfold rank_le. intros a b c. lia. Qed.

#[local] Instance rank_le_total rank : Total (rank_le rank).
Proof. unfold rank_le. intros a b. lia. Qed.

Lemma StronglySorted_rank_ext (r1 r2 : string → nat) (l : list string) :
  (∀ a b, a ∈ l → b ∈ l → r1 a ≤ r1 b → r2 a ≤ r2 b) →
  StronglySorted (rank_le r1) l → StronglySorted (rank_le r2) l.
Proof.
  intros H Hs. induction Hs as [|y k Hs IH Hall]; constructor.
  - apply IH. intros; apply H; set_solver.
  - rewrite Forall_forall in *. intros z Hz.
    apply H; [set_solver..|]. by apply Hall.
Qed.

Lemma position_sorted l : NoDup l → StronglySorted (rank_le (λ e, position e l)) l.
Proof.
  induction 1 as [|x k Hx Hk IH]; constructor.
  - apply (StronglySorted_rank_ext (λ e, position e k)); [|done].
    intros a b Ha Hb Hle. cbn.
    rewrite !decide_False by (intros ->; done). lia.
  - apply Forall_forall. intros y Hy. unfold rank_le. cbn.
    rewrite decide_True by done. lia.
Qed.

Lemma position_inj l a b :
  a ∈ l → b ∈ l → position a l = position b l → a = b.
Proof.
  induction l as [|x l IH]; [by intros ?%elem_of_nil|].
  intros Ha Hb. cbn. repeat case_decide; simplify_eq; try done.
  intros [=]. apply IH; set_solver.
Qed.

(** Every order of the members of a set is the iteration of some rank. *)
Lemma iterate_any_order (X : gset string) (l : list string) :
  l ≡ₚ elements X → ∃ rank, iterate rank X = l.
Proof.
  intros Hl. exists (λ e, position e l). unfold iterate.
  assert (NoDup l) as Hnd by (rewrite Hl; apply NoDup_elements).
  apply (StronglySorted_unique_strong (rank_le (λ e, position e l))).
  - intros a b Ha Hb H1 H2. unfold rank_le in *.
    rewrite merge_sort_Permutation, <- Hl in Ha.
    apply (position_inj l); [done..|lia].
  - apply StronglySorted_merge_sort; apply _.
  - by apply position_sorted.
  - by rewrite merge_sort_Permutation.
Qed.

Lemma apply_assigned_keeps es t t' :
  apply_assigned es t = Ok t' →
  id t' = id t ∧ status t' = status t ∧
  created_time t' = created_time t ∧ space_name t' = space_name t.
Proof.
  revert t. induction es as [|e es IH]; intros t H; simplify_eq/=; [done|].
  unfold rbind in H. repeat case_match; simplify_eq;
    apply IH in H as (-> & -> & -> & ->); done.
Qed.

Lemma apply_status_id b tid t : id (apply_status b tid t) = id t.
Proof. unfold apply_status. by repeat case_match. Qed.

Lemma apply_status_assignee b tid t : assignee (apply_status b tid t) = assignee t.
Proof. unfold apply_status. by repeat case_match. Qed.

Lemma remove_task_shrinks i t l l1 pos :
  remove_task i t l = (l1, pos) →
  length l1 ≤ length l ∧ ∀ x, x ∈ l1 → x ∈ l.
Proof.
  unfold remove_task. intros H. repeat case_match; simplify_eq.
  - split; [rewrite length_delete; [lia|] | eauto using list_elem_of_delete_inv].
    match goal with H : list_find _ _ = Some _ |- _ =>
      apply list_find_Some in H as (Hk & _) end. eauto.
  - split; [rewrite length_delete; [lia|] | eauto using list_elem_of_delete_inv].
    match goal with H : list_find _ _ = Some _ |- _ =>
      apply list_find_Some in H as (Hk & _) end. eauto.
  - done.
Qed.

(** A turn never makes the list longer, and brings no new id into it. *)
Lemma visit_shrinks rank b i t l l' :
  l !! i = Some t →
  visit rank b i t l = Ok l' →
  length l' ≤ length l ∧ ∀ x, x ∈ l' → id x ∈ id <$> l.
Proof.
  intros Hi H. unfold visit in H.
  destruct (if bool_decide (id t ∈ deleted_tasks b)
            then remove_task i t l else (l, Some i)) as [l1 pos] eqn:Hrm.
  assert (length l1 ≤ length l ∧ ∀ x, x ∈ l1 → x ∈ l) as [Hlen Hsub].
  { case_bool_decide; [by eapply remove_task_shrinks | by simplify_eq]. }
  destruct (apply_assigned _ t) as [t1|] eqn:Ht1; simplify_eq/=.
  apply apply_assigned_keeps in Ht1 as (Hid & _).
  destruct pos as [p|].
  - rewrite length_insert. split; [done|].
    intros x [->|Hx]%list_elem_of_insert_inv.
    + rewrite apply_status_id, Hid. apply list_elem_of_fmap_2.
      by eapply list_elem_of_lookup_2.
    + by apply list_elem_of_fmap_2, Hsub.
  - split; [done|]. intros x Hx. by apply list_elem_of_fmap_2, Hsub.
Qed.

Lemma reconcile_S rank b fuel i l :
  reconcile rank b (S fuel) i l =
  match l !! i with
  | None => Ok l
  | Some t => l' <-! visit rank b i t l; reconcile rank b fuel (S i) l'
  end.
Proof. reflexivity. Qed.

(** Once the fuel covers what is left of the list, more fuel changes
    nothing: with [len(tasks)] turns the loop has run to its end. *)
Lemma reconcile_fuel rank b fuel i l :
  length l ≤ i + fuel →
  reconcile rank b (S fuel) i l = reconcile rank b fuel i l.
Proof.
  revert i l. induction fuel as [|fuel IH]; intros i l Hlen.
  - rewrite reconcile_S, lookup_ge_None_2 by lia. done.
  - rewrite (reconcile_S _ _ (S fuel)), (reconcile_S _ _ fuel).
    destruct (l !! i) as [t|] eqn:Hi; [|done].
    destruct (visit rank b i t l) as [l'|] eqn:Hv; [|done].
    cbn [rbind]. apply IH.
    apply (visit_shrinks _ _ _ _ _ _ Hi) in Hv as [? _]. lia.
Qed.

Lemma reconcile_enough rank b extra l :
  reconcile rank b (length l + extra) 0 l = reconcile rank b (length l) 0 l.
Proof.
  induction extra as [|extra IH]; [by rewrite Nat.add_0_r|].
  rewrite Nat.add_succ_r, reconcile_fuel by lia. done.
Qed.

(** Every task of the result carries the id of a task of the input. *)
Lemma reconcile_ids rank b fuel i l r :
  reconcile rank b fuel i l = Ok r →
  ∀ x, x ∈ r → id x ∈ id <$> l.
Proof.
  revert i l. induction fuel as [|fuel IH]; intros i l H x Hx.
  - simplify_eq/=. by apply list_elem_of_fmap_2.
  - rewrite reconcile_S in H.
    destruct (l !! i) as [t|] eqn:Hi; [|simplify_eq; by apply list_elem_of_fmap_2].
    destruct (visit rank b i t l) as [l'|] eqn:Hv; simplify_eq/=.
    apply (visit_shrinks _ _ _ _ _ _ Hi) in Hv as [_ Hsub].
    apply (IH _ _ H) in Hx.
    apply list_elem_of_fmap in Hx as (y & -> & Hy). auto.
Qed.

(** The entries of the assigned set all hold an [@], so reading them back
    never fails. *)
Lemma apply_assigned_total es t :
  (∀ e, e ∈ es → Str.contains "@" e = true) → is_ok (apply_assigned es t).
Proof.
  revert t. induction es as [|e es IH]; intros t H; [by eexists|].
  cbn [apply_assigned].
  destruct (contains_char_true "@" e) as [r Hr]; [apply H; set_solver|].
  rewrite index_split_0, (index_split_1 _ _ _ Hr). cbn [rbind].
  apply IH. intros; apply H; set_solver.
Qed.

Lemma reconcile_total rank b fuel i l :
  (∀ e, e ∈ assigned_tasks b → Str.contains "@" e = true) →
  is_ok (reconcile rank b fuel i l).
Proof.
  intros Hat. revert i l.
  induction fuel as [|fuel IH]; intros i l; [by eexists|].
  rewrite reconcile_S. destruct (l !! i) as [t|]; [|by eexists].
  unfold visit.
  destruct (if bool_decide (id t ∈ deleted_tasks b)
            then remove_task i t l else (l, Some i)) as [l1 pos].
  destruct (apply_assigned_total (iterate rank (assigned_tasks b)) t) as [t1 ->].
  { intros e He. by apply Hat, elem_of_iterate with rank. }
  cbn [rbind]. apply IH.
Qed.

Lemma entry_has_at m e : entry_of m e → Str.contains "@" e = true.
Proof.
  intros (tid & txt & a & _ & _ & _ & ->).
  rewrite contains_char. apply bool_decide_eq_true_2.
  apply (after_first_app_some "@" tid a).
Qed.

Lemma collected_entries space l b e :
  collect_all space no_buckets l = Ok b →
  e ∈ assigned_tasks b → ∃ m, m ∈ l ∧ entry_of m e.
Proof.
  intros H He. apply (collect_all_assigned _ _ _ _ e H) in He as [He|He]; [|done].
  cbn in He. set_solver.
Qed.

(** On a batch that the first loop can read, [get_tasks] raises nothing. *)
Lemma get_tasks_of_total rank space l :
  forallb readable l = true → is_ok (get_tasks_of rank space l).
Proof.
  intros H. unfold get_tasks_of.
  destruct (collect_all_total space no_buckets l H) as [b Hb]. rewrite Hb.
  cbn [rbind]. apply reconcile_total.
  intros e He. destruct (collected_entries _ _ _ _ Hb He) as (m & _ & Hm).
  by eapply entry_has_at.
Qed.

(** ** Batches without deletions *)

Lemma visit_kept rank b i t l :
  deleted_tasks b = ∅ →
  visit rank b i t l =
  (t1 <-! apply_assigned (iterate rank (assigned_tasks b)) t;
   Ok (<[i := apply_status b (id t) t1]> l)).
Proof.
  intros Hd. unfold visit. rewrite Hd.
  by rewrite bool_decide_eq_false_2 by set_solver.
Qed.

(** With an empty deleted set the loop visits every index once: the tasks
    before the iterator stay as they are, and each later one gets the two
    updates of the body. *)
Lemma reconcile_kept rank b fuel i l r :
  deleted_tasks b = ∅ →
  length l ≤ i + fuel →
  reconcile rank b fuel i l = Ok r →
  length r = length l ∧
  ∀ j t, l !! j = Some t →
    (j < i → r !! j = Some t) ∧
    (i ≤ j → ∃ t1, apply_assigned (iterate rank (assigned_tasks b)) t = Ok t1 ∧
                   r !! j = Some (apply_status b (id t) t1)).
Proof.
  intros Hd. revert i l.
  induction fuel as [|fuel IH]; intros i l Hlen H.
  - simplify_eq/=. split; [done|]. intros j t Hj.
    apply lookup_lt_Some in Hj as Hlt. split; [done | lia].
  - rewrite reconcile_S in H. destruct (l !! i) as [t0|] eqn:Hi.
    + rewrite visit_kept in H by done.
      destruct (apply_assigned _ t0) as [t1|] eqn:Ht1; simplify_eq/=.
      apply IH in H as [Hr Hel]; [|rewrite length_insert; lia].
      rewrite length_insert in Hr. split; [done|].
      intros j t Hj. destruct (decide (j = i)) as [->|Hne].
      * simplify_eq. split; [lia|]. intros _. exists t1. split; [done|].
        apply (Hel i); [|lia].
        apply list_lookup_insert_eq. by eapply lookup_lt_Some.
      * specialize (Hel j t). rewrite list_lookup_insert_ne in Hel by done.
        destruct (Hel Hj) as [Hlo Hhi]. split; intros; [apply Hlo | apply Hhi]; lia.
    + simplify_eq. apply lookup_ge_None_1 in Hi. split; [done|].
      intros j t Hj. apply lookup_lt_Some in Hj as Hlt. split; [done | lia].
Qed.

Lemma reconcile_kept_ids rank b l r :
  deleted_tasks b = ∅ →
  reconcile rank b (length l) 0 l = Ok r →
  id <$> r = id <$> l.
Proof.
  intros Hd H. apply reconcile_kept in H as [Hlen Hel]; [|done|lia].
  apply list_eq. intros j. rewrite !list_lookup_fmap.
  destruct (l !! j) as [t|] eqn:Hj.
  - destruct (Hel j t Hj) as [_ Hhi].
    destruct Hhi as (t1 & Ht1 & ->); [lia|]. cbn.
    apply apply_assigned_keeps in Ht1 as (Hid & _).
    by rewrite apply_status_id, Hid.
  - apply lookup_ge_None_1 in Hj. by rewrite lookup_ge_None_2 by lia.
Qed.

Lemma no_deletion_events space l b :
  existsb (has_kind DELETED) l = false →
  collect_all space no_buckets l = Ok b →
  deleted_tasks b = ∅.
Proof.
  intros Hk H. rewrite (collect_all_deleted _ _ _ _ H); [done|].
  intros m Hm Hdel.
  assert (existsb (has_kind DELETED) l = true); [|congruence].
  apply existsb_exists. exists m. split; [by apply list_elem_of_In|].
  by apply bool_decide_eq_true_2.
Qed.

Lemma elem_of_created_ids tid l :
  tid ∈ created_ids l ↔ ∃ m, m ∈ l ∧ carries m CREATED tid.
Proof.
  unfold created_ids, carries. rewrite list_elem_of_omap.
  split; intros (m & Hm & H); exists m; (split; [done|]).
  - repeat case_match; by simplify_eq.
  - destruct H as [-> ->]. done.
Qed.

(** * The claims about [get_tasks] *)

(** C1.  The batch of the specification, a creation, a completion and a
    reopening of one task: the task comes out completed, not open.  The
    [elif] that looks at the reopened set is reached only when the task is
    not in the completed set. *)
Theorem reopen_after_complete_stays_completed (rank : string → nat) :
  get_tasks_of rank "spaces/S"
    [ event T3 "Created a task for @Ann (via Tasks)" "2024-01-05T10:00:00Z";
      event T3 "Completed a task (via Tasks)" "2024-01-06T10:00:00Z";
      event T3 "Re-opened a task (via Tasks)" "2024-01-07T10:00:00Z" ]
  = Ok [ {| id := "T3"; assignee := "Ann"; status := "COMPLETED";
            created_time := "2024-01-05T10:00:00Z"; space_name := "spaces/S" |} ].
Proof. reflexivity. Qed.

(** The reopened set never changes an open task: on a task that is still
    open, the status update is the completed test alone. *)
Lemma reopened_branch_is_idle b tid t :
  status t = "OPEN" →
  apply_status b tid t =
  if bool_decide (tid ∈ completed_tasks b) then set_status "COMPLETED" t else t.
Proof.
  intros H. unfold apply_status. repeat case_match; try done.
  destruct t; simplify_eq/=. done.
Qed.

(** C2.  Two created tasks, both deleted: removing the first while the
    loop runs moves the second into the place the iterator has just left,
    so the second is never looked at and stays in the result. *)
Theorem second_deleted_task_survives (rank : string → nat) :
  get_tasks_of rank "spaces/S"
    [ event T1 "Created a task for @Ann (via Tasks)" "2024-01-05T10:00:00Z";
      event T2 "Created a task for @Bob (via Tasks)" "2024-01-05T11:00:00Z";
      event T1 "Deleted a task (via Tasks)" "2024-01-06T10:00:00Z";
      event T2 "Deleted a task (via Tasks)" "2024-01-06T11:00:00Z" ]
  = Ok [ {| id := "T2"; assignee := "Bob"; status := "OPEN";
            created_time := "2024-01-05T11:00:00Z"; space_name := "spaces/S" |} ].
Proof. reflexivity. Qed.

(** The batch that the specification gives for deletion precedence, with
    one task, comes out empty. *)
Example single_deleted_task_is_removed (rank : string → nat) :
  get_tasks_of rank "spaces/S"
    [ event T1 "Created a task for @Ann (via Tasks)" "2024-01-05T10:00:00Z";
      event T1 "Completed a task (via Tasks)" "2024-01-06T10:00:00Z";
      event T1 "Deleted a task (via Tasks)" "2024-01-07T10:00:00Z" ]
  = Ok [].
Proof. reflexivity. Qed.

(** On a readable batch without deletion events the result has the ids of
    the creation events, in their order. *)
Lemma get_tasks_of_kept rank space l :
  forallb readable l = true →
  existsb (has_kind DELETED) l = false →
  ∃ ts, get_tasks_of rank space l = Ok ts ∧ id <$> ts = created_ids l.
Proof.
  intros Hread Hdel.
  destruct (get_tasks_of_total rank space l Hread) as [ts Hts].
  exists ts. split; [done|].
  unfold get_tasks_of in Hts.
  destruct (collect_all space no_buckets l) as [b|] eqn:Hb; simplify_eq/=.
  rewrite (reconcile_kept_ids _ _ _ _ (no_deletion_events _ _ _ Hdel Hb) Hts).
  by rewrite (collect_all_ids _ _ _ _ Hb).
Qed.

(** ** The ids of the result, deletions included *)

(** A removal leaves a sublist, and the task that the iterator holds, when
    it is still in the list, sits at the place given. *)
Lemma remove_task_place i t l l1 pos :
  l !! i = Some t →
  remove_task i t l = (l1, pos) →
  l1 `sublist_of` l ∧ ∀ p, pos = Some p → l1 !! p = Some t.
Proof.
  intros Hi. unfold remove_task.
  destruct (list_find (λ x, x = t) l) as [[k x]|] eqn:Hfind; intros ?; simplify_eq.
  - apply list_find_Some in Hfind as (Hk & -> & Hfirst).
    split; [apply sublist_delete|]. intros p Hp.
    destruct (Nat.eqb_spec k i) as [->|Hne]; simplify_eq.
    assert (k < i) as Hlt.
    { destruct (decide (i < k)) as [Hik|]; [|lia]. by destruct (Hfirst i t Hi Hik). }
    rewrite list_lookup_delete_ge by lia.
    by replace (S (i - 1)) with i by lia.
  - split; [done|]. by intros p ?; simplify_eq.
Qed.

(** A turn of the second loop leaves the ids of a sublist, in their order. *)
Lemma visit_ids rank b i t l l' :
  l !! i = Some t →
  visit rank b i t l = Ok l' →
  (id <$> l') `sublist_of` (id <$> l).
Proof.
  intros Hi H. unfold visit in H.
  destruct (if bool_decide (id t ∈ deleted_tasks b)
            then remove_task i t l else (l, Some i)) as [l1 pos] eqn:Hrm.
  assert (l1 `sublist_of` l ∧ ∀ p, pos = Some p → l1 !! p = Some t) as [Hsub Hpos].
  { case_bool_decide; [by eapply remove_task_place|].
    simplify_eq. split; [done|]. by intros p ?; simplify_eq. }
  destruct (apply_assigned _ t) as [t1|] eqn:Ht1; simplify_eq/=.
  apply apply_assigned_keeps in Ht1 as (Hid & _).
  transitivity (id <$> l1); [|by apply fmap_sublist].
  destruct pos as [p|]; [|done].
  rewrite list_fmap_insert, list_insert_id; [done|].
  rewrite list_lookup_fmap, (Hpos p eq_refl). cbn.
  by rewrite apply_status_id, Hid.
Qed.

Lemma reconcile_sublist rank b fuel i l r :
  reconcile rank b fuel i l = Ok r →
  (id <$> r) `sublist_of` (id <$> l).
Proof.
  revert i l. induction fuel as [|fuel IH]; intros i l H.
  - by simplify_eq/=.
  - rewrite reconcile_S in H.
    destruct (l !! i) as [t|] eqn:Hi; [|by simplify_eq].
    destruct (visit rank b i t l) as [l'|] eqn:Hv; simplify_eq/=.
    transitivity (id <$> l'); [by eapply IH | by eapply visit_ids].
Qed.

(** On every batch the ids of the tasks returned are, in their order, ids
    of creation events of the batch. *)
Lemma get_tasks_of_sublist rank space l ts :
  get_tasks_of rank space l = Ok ts →
  (id <$> ts) `sublist_of` created_ids l.
Proof.
  intros Hts. unfold get_tasks_of in Hts.
  destruct (collect_all space no_buckets l) as [b|] eqn:Hb; simplify_eq/=.
  apply reconcile_sublist in Hts.
  by rewrite (collect_all_ids _ _ _ _ Hb) in Hts.
Qed.

(** C3, as amended.  On a batch that can be read, deletion events or not,
    nothing is raised, and the ids of the tasks returned are, in the order
    of the batch, ids of its creation events, each creation event giving at
    most one task: the result has at most one task for an id when the
    creation events have distinct ids.  A second creation event for an id is
    not ignored but applied like the first: without deletion events the
    result has the ids of the creation events one for one, repeated ids
    included. *)
Theorem every_creation_materializes (rank : string → nat) (space : string)
    (l : list message) :
  forallb readable l = true →
  ∃ ts, get_tasks_of rank space l = Ok ts ∧
    (id <$> ts) `sublist_of` created_ids l ∧
    (NoDup (created_ids l) → NoDup (id <$> ts)) ∧
    (existsb (has_kind DELETED) l = false → id <$> ts = created_ids l).
Proof.
  intros Hread.
  destruct (get_tasks_of_total rank space l Hread) as [ts Hts].
  exists ts. split; [done|].
  pose proof (get_tasks_of_sublist _ _ _ _ Hts) as Hsub.
  split; [done|]. split.
  - intros Hnd. by eapply sublist_NoDup.
  - intros Hdel. destruct (get_tasks_of_kept rank space l Hread Hdel) as (ts' & Hts' & Hids).
    congruence.
Qed.

Lemma every_creation_materializes_witness :
  ∃ ts, get_tasks_of String.length "spaces/S" twice_deleted = Ok ts ∧
    (id <$> ts) `sublist_of` created_ids twice_deleted ∧
    (NoDup (created_ids twice_deleted) → NoDup (id <$> ts)) ∧
    (existsb (has_kind DELETED) twice_deleted = false →
     id <$> ts = created_ids twice_deleted).
Proof.
  apply (every_creation_materializes String.length "spaces/S" twice_deleted).
  reflexivity.
Defined.

(** A readable batch with deletion events and distinct creation ids: one
    task for each id that is left. *)
Example distinct_creations_example :
  get_tasks_of String.length "spaces/S" twice_deleted
  = Ok [ {| id := "T2"; assignee := "Bob"; status := "OPEN";
            created_time := "2024-01-05T11:00:00Z"; space_name := "spaces/S" |} ]
  ∧ created_ids twice_deleted = ["T1"; "T2"].
Proof. split; reflexivity. Qed.

(** C3, as stated, fails: two creation events with one id give two tasks
    with that id, the second as much applied as the first. *)
Lemma duplicate_creation_counterexample :
  get_tasks_of String.length "spaces/S" twice_created
  = Ok [ {| id := "T1"; assignee := "Ann"; status := "OPEN";
            created_time := "2024-01-05T10:00:00Z"; space_name := "spaces/S" |};
         {| id := "T1"; assignee := "Bob"; status := "OPEN";
            created_time := "2024-01-05T11:00:00Z"; space_name := "spaces/S" |} ]
  ∧ ¬ (∀ ts, get_tasks_of String.length "spaces/S" twice_created = Ok ts →
             NoDup (id <$> ts)).
Proof.
  split; [reflexivity|].
  intros H. specialize (H _ eq_refl).
  apply NoDup_cons in H as [H _]. apply H. cbn. set_solver.
Qed.

(** C6.  A task created for Alice and assigned to Bob, in a batch that
    also creates and deletes another task before it: the assignment is
    lost, since the removal makes the iterator step over the task.  This is
    the defect of C2. *)
Theorem assignment_lost_after_removal (rank : string → nat) :
  get_tasks_of rank "spaces/S"
    [ event T1 "Created a task for @Carol (via Tasks)" "2024-01-05T09:00:00Z";
      event T2 "Created a task for @Alice (via Tasks)" "2024-01-05T10:00:00Z";
      event T2 "Assigned a task to @Bob (via Tasks)" "2024-01-06T10:00:00Z";
      event T1 "Deleted a task (via Tasks)" "2024-01-07T10:00:00Z" ]
  = Ok [ {| id := "T2"; assignee := "Alice"; status := "OPEN";
            created_time := "2024-01-05T10:00:00Z"; space_name := "spaces/S" |} ].
Proof. reflexivity. Qed.

(** The batch of the specification, with nothing else in it, gives Bob. *)
Example assignment_override_alone (rank : string → nat) :
  get_tasks_of rank "spaces/S"
    [ event T2 "Created a task for @Alice(alice) (via Tasks)" "2024-01-05T10:00:00Z";
      event T2 "Assigned a task to @Bob(bob) to Space (via Tasks)" "2024-01-06T10:00:00Z" ]
  = Ok [ {| id := "T2"; assignee := "Bob"; status := "OPEN";
            created_time := "2024-01-05T10:00:00Z"; space_name := "spaces/S" |} ].
Proof. reflexivity. Qed.

(** C7.  An event message whose thread path has fewer than four segments
    makes [get_tasks] raise: the batch has no result, partial or other. *)
Theorem malformed_identifier_propagates (rank : string → nat) (space : string)
    (l : list message) (m : message) (path : string) :
  m ∈ l →
  is_event m = true →
  thread_name m = Some path →
  length (Str.split "/" path) < 4 →
  ∃ e, get_tasks_of rank space l = Raise e.
Proof.
  intros Hin Hev Hpath Hlen.
  assert (task_id_of m = Raise IndexError) as Hid.
  { unfold task_id_of, index. rewrite Hpath. cbn [getitem rbind].
    by rewrite lookup_ge_None_2 by lia. }
  destruct (collect_all_raises space no_buckets l m _ Hin Hev Hid) as [e He].
  exists e. unfold get_tasks_of. by rewrite He.
Qed.

Lemma malformed_identifier_propagates_witness :
  ∃ e, get_tasks_of String.length "spaces/S"
         [ event T1 "Created a task for @Ann (via Tasks)" "2024-01-05T10:00:00Z";
           short_thread ] = Raise e.
Proof.
  apply (malformed_identifier_propagates String.length "spaces/S" _ short_thread "spaces/S").
  - apply list_elem_of_further, list_elem_of_here.
  - reflexivity.
  - reflexivity.
  - vm_compute. lia.
Defined.

(** The exception is the [IndexError] of the subscript when the messages
    before the malformed one are read without one. *)
Lemma malformed_identifier_is_IndexError rank space pre m post path b :
  collect_all space no_buckets pre = Ok b →
  is_event m = true →
  thread_name m = Some path →
  length (Str.split "/" path) < 4 →
  get_tasks_of rank space (pre ++ m :: post) = Raise IndexError.
Proof.
  intros Hpre Hev Hpath Hlen. unfold get_tasks_of.
  rewrite collect_all_app, Hpre. cbn [rbind collect_all].
  rewrite (collect_raises _ _ _ IndexError Hev); [done|].
  unfold task_id_of, index. rewrite Hpath. cbn [getitem rbind].
  by rewrite lookup_ge_None_2 by lia.
Qed.

(** C8.  On a readable batch nothing is raised, and every task of the
    result has the id of a creation event of the batch: an assignment,
    completion, deletion or reopening of an id that no creation event
    carries leaves no task behind. *)
Theorem unknown_reference_is_inert (rank : string → nat) (space : string)
    (l : list message) :
  forallb readable l = true →
  ∃ ts, get_tasks_of rank space l = Ok ts ∧
        ∀ t, t ∈ ts → ∃ m, m ∈ l ∧ carries m CREATED (id t).
Proof.
  intros Hread.
  destruct (get_tasks_of_total rank space l Hread) as [ts Hts].
  exists ts. split; [done|]. intros t Ht.
  unfold get_tasks_of in Hts.
  destruct (collect_all space no_buckets l) as [b|] eqn:Hb; simplify_eq/=.
  apply (reconcile_ids _ _ _ _ _ _ Hts) in Ht.
  rewrite (collect_all_ids _ _ _ _ Hb) in Ht.
  by apply elem_of_created_ids.
Qed.

Lemma unknown_reference_is_inert_witness :
  ∃ ts, get_tasks_of String.length "spaces/S" unknown_references = Ok ts ∧
        ∀ t, t ∈ ts → ∃ m, m ∈ unknown_references ∧ carries m CREATED (id t).
Proof.
  apply (unknown_reference_is_inert String.length "spaces/S" unknown_references).
  reflexivity.
Defined.

(** The batch of the specification: a lone completion gives no task. *)
Example lone_completion_gives_nothing (rank : string → nat) :
  get_tasks_of rank "spaces/S"
    [ event T9 "Completed a task (via Tasks)" "2024-01-06T10:00:00Z" ] = Ok [].
Proof. reflexivity. Qed.

(** ** Assignments without a mention *)

(** Reading an entry back, when the id holds no [@]. *)
Lemma entry_parse tid a :
  Str.contains "@" tid = false →
  index (Str.split "@" (tid +:+ "@" +:+ a)) 0 = Ok tid ∧
  index (Str.split "@" (tid +:+ "@" +:+ a)) 1 = Ok (until_any ["@"%char] a).
Proof.
  intros H%contains_char_false.
  destruct (after_first_app "@" tid a H) as [Haf Hun].
  change ("@" +:+ a) with (String "@" a). split.
  - by rewrite index_split_0, before_first_char, Hun.
  - by apply index_split_1.
Qed.

Lemma set_assignee_same t : set_assignee (assignee t) t = t.
Proof. by destruct t. Qed.

Lemma apply_assigned_settled es t x :
  (∀ e, e ∈ es → assigns (id t) x e) →
  assignee t = x →
  apply_assigned es t = Ok t.
Proof.
  induction es as [|e es IH]; intros H Hx; [done|].
  cbn [apply_assigned].
  destruct (H e) as (tid' & a & -> & -> & Ha); [set_solver|]. cbn [rbind].
  destruct (String.eqb_spec tid' (id t)) as [->|Hne].
  - rewrite (Ha eq_refl), <- Hx, set_assignee_same.
    apply IH; [|done]. intros; apply H; set_solver.
  - apply IH; [|done]. intros; apply H; set_solver.
Qed.

Lemma apply_assigned_hit es t x :
  (∀ e, e ∈ es → assigns (id t) x e) →
  (∃ e, e ∈ es ∧ index (Str.split "@" e) 0 = Ok (id t)) →
  apply_assigned es t = Ok (set_assignee x t).
Proof.
  induction es as [|e es IH]; intros H (e0 & He0 & Hhit).
  - by apply elem_of_nil in He0.
  - cbn [apply_assigned].
    destruct (H e) as (tid' & a & H0 & H1 & Ha); [set_solver|].
    rewrite H0, H1. cbn [rbind].
    destruct (String.eqb_spec tid' (id t)) as [->|Hne].
    + rewrite (Ha eq_refl).
      apply (apply_assigned_settled es (set_assignee x t) x); [|done].
      intros; apply H; set_solver.
    + apply IH; [intros; apply H; set_solver|].
      apply elem_of_cons in He0 as [->|He0]; [|eauto]. congruence.
Qed.

Lemma event_has_text m k : event_kind m = Some k → ∃ txt, text m = Some txt.
Proof.
  unfold event_kind, is_event. destruct (text m); [eauto|]. by cbn.
Qed.

(** On a readable batch without deletion events and with ids free of
    [@], a task id whose assignment events all name one assignee, and that
    has such an event, comes out with that assignee in every task created
    for it. *)
Lemma assignment_applies rank space l tid x :
  forallb readable l = true →
  existsb (has_kind DELETED) l = false →
  (∀ m t, m ∈ l → task_id_of m = Ok t → Str.contains "@" t = false) →
  (∀ m txt, m ∈ l → carries m ASSIGNED tid → text m = Some txt →
            assignee_of txt = Ok x) →
  (∃ m, m ∈ l ∧ carries m ASSIGNED tid) →
  ∃ ts, get_tasks_of rank space l = Ok ts ∧
        id <$> ts = created_ids l ∧
        ∀ t, t ∈ ts → id t = tid → assignee t = x.
Proof.
  intros Hread Hdel Hplain Hsame (m0 & Hm0 & Hc0).
  destruct (get_tasks_of_kept rank space l Hread Hdel) as (ts & Hts & Hids).
  exists ts. split; [done|]. split; [done|]. intros t Ht Hid.
  unfold get_tasks_of in Hts.
  destruct (collect_all space no_buckets l) as [b|] eqn:Hb; simplify_eq/=.
  pose proof (no_deletion_events _ _ _ Hdel Hb) as Hd.
  apply reconcile_kept in Hts as [Hlen Hel]; [|done|lia].
  apply list_elem_of_lookup in Ht as [j Hj].
  destruct (lookup_lt_is_Some_2 (tasks b) j) as [t0 Ht0];
    [rewrite <- Hlen; by eapply lookup_lt_Some|].
  destruct (Hel j t0 Ht0) as [_ Hhi].
  destruct Hhi as (t1 & Ht1 & Hr); [lia|]. rewrite Hr in Hj. simplify_eq.
  rewrite apply_status_assignee.
  rewrite apply_status_id in *.
  pose proof (apply_assigned_keeps _ _ _ Ht1) as (Hid1 & _).
  rewrite (apply_assigned_hit _ t0 x) in Ht1; [by simplify_eq| |].
  - intros e He%elem_of_iterate.
    destruct (collected_entries _ _ _ _ Hb He)
      as (m & Hm & tid' & txt & a & Hc & Htxt & Ha & ->).
    destruct (entry_parse tid' a) as [H0 H1]; [destruct Hc; eauto|].
    rewrite (until_any_absent _ _ (assignee_of_plain _ _ Ha)) in H1.
    exists tid', a. split; [done|]. split; [done|].
    intros ->. rewrite <- Hid1 in Hc.
    specialize (Hsame m txt Hm Hc Htxt). congruence.
  - destruct (event_has_text m0 ASSIGNED) as [txt Htxt]; [by destruct Hc0|].
    pose proof (Hsame m0 txt Hm0 Hc0 Htxt) as Ha.
    exists (id t1 +:+ "@" +:+ x). split.
    + apply elem_of_iterate, (collect_all_assigned _ _ _ _ _ Hb).
      right. exists m0. split; [done|]. exists (id t1), txt, x. done.
    + rewrite <- Hid1. apply entry_parse. destruct Hc0; eauto.
Qed.

(** C10, as amended.  An assignment event whose text has no [@] is recorded
    with the assignee ["Unassigned"], as a creation is.  On a readable batch
    without deletion events and with ids free of [@], a task id whose
    assignment events all lack a mention, and that has one, comes out with
    that assignee in every task created for it. *)
Theorem unassigned_override (rank : string → nat) (space : string)
    (l : list message) (tid : string) :
  forallb readable l = true →
  existsb (has_kind DELETED) l = false →
  (∀ m t, m ∈ l → task_id_of m = Ok t → Str.contains "@" t = false) →
  (∀ m txt, m ∈ l → carries m ASSIGNED tid → text m = Some txt →
            Str.contains "@" txt = false) →
  (∃ m, m ∈ l ∧ carries m ASSIGNED tid) →
  ∃ ts, get_tasks_of rank space l = Ok ts ∧
        id <$> ts = created_ids l ∧
        ∀ t, t ∈ ts → id t = tid → assignee t = "Unassigned".
Proof.
  intros Hread Hdel Hplain Hfree Hsome.
  apply assignment_applies; try done.
  intros m txt Hm Hc Htxt. unfold assignee_of.
  by rewrite (Hfree m txt Hm Hc Htxt).
Qed.

Lemma unassigned_override_witness :
  ∃ ts, get_tasks_of String.length "spaces/S" bare_assignment = Ok ts ∧
        id <$> ts = created_ids bare_assignment ∧
        ∀ t, t ∈ ts → id t = "T2" → assignee t = "Unassigned".
Proof.
  apply (unassigned_override String.length "spaces/S" bare_assignment "T2").
  - reflexivity.
  - reflexivity.
  - intros m t Hm.
    repeat (apply elem_of_cons in Hm as [->|Hm]);
      [| |by apply elem_of_nil in Hm]; vm_compute; intros; by simplify_eq.
  - intros m txt Hm.
    repeat (apply elem_of_cons in Hm as [->|Hm]);
      [| |by apply elem_of_nil in Hm]; vm_compute; intros [??] ?; by simplify_eq.
  - exists (event T2 "Assigned a task (via Tasks)" "2024-01-06T10:00:00Z").
    split; [apply list_elem_of_further, list_elem_of_here | by split].
Defined.

(** C10, as stated, fails: with a second assignment event for the task,
    one that mentions Bob, the iteration order of the set decides, and in
    the order [bob_last] the task is Bob's, not unassigned. *)
Lemma unassigned_override_counterexample :
  get_tasks_of bob_last "spaces/S"
    [ event T2 "Created a task for @Alice (via Tasks)" "2024-01-05T10:00:00Z";
      event T2 "Assigned a task (via Tasks)" "2024-01-06T10:00:00Z";
      event T2 "Assigned a task to @Bob (via Tasks)" "2024-01-06T11:00:00Z" ]
  = Ok [ {| id := "T2"; assignee := "Bob"; status := "OPEN";
            created_time := "2024-01-05T10:00:00Z"; space_name := "spaces/S" |} ].
Proof. reflexivity. Qed.

(** * Retrieval *)

Lemma append_assoc (s1 s2 s3 : string) : (s1 +:+ s2) +:+ s3 = s1 +:+ s2 +:+ s3.
Proof. induction s1 as [|a s1 IH]; [done|]. rewrite !append_cons. by f_equal. Qed.

(** The filter is the text that the source formats. *)
Lemma render_time_filter date_start date_end :
  render (time_filter date_start date_end) =
  "createTime > " +:+ dquote +:+ date_start +:+ dquote +:+
  " AND createTime < " +:+ dquote +:+ date_end +:+ dquote.
Proof.
  cbn [render time_filter]. unfold render_clause. cbn [op bound render_op].
  rewrite !append_assoc. reflexivity.
Qed.

Lemma selected_time_filter st date_start date_end space :
  selected st (time_filter date_start date_end) space =
  List.filter (strictly_between st date_start date_end) (stored st space).
Proof.
  unfold selected. apply List.filter_ext. intros m.
  unfold strictly_between, holds, time_filter. cbn.
  destruct (createTime m); [|done]. by rewrite andb_true_r.
Qed.

(** The loop gathers the pages of the service into the whole selection. *)
Lemma fetch_pages_serve st space q fuel page_token acc :
  0 < page_size st →
  length (selected st q space) - default 0 page_token < fuel →
  fetch_pages (serve st) space q fuel page_token acc =
  Some (acc ++ drop (default 0 page_token) (selected st q space)).
Proof.
  intros Hn. revert page_token acc.
  induction fuel as [|fuel IH]; intros page_token acc Hfuel; [lia|].
  cbn [fetch_pages serve messages nextPageToken].
  set (all := selected st q space) in *.
  set (from := default 0 page_token) in *.
  destruct (Nat.ltb_spec (from + page_size st) (length all)) as [Hlt|Hge].
  - destruct (from + page_size st) as [|k] eqn:Hk; [lia|].
    rewrite IH by (cbn; lia). change (default 0 (Some (S k))) with (S k).
    rewrite <- Hk, <- app_assoc, <- drop_drop, take_drop. done.
  - rewrite take_ge by (rewrite length_drop; lia). done.
Qed.

Lemma get_messages_for_space_serve st fuel space date_start date_end :
  0 < page_size st →
  length (stored st space) < fuel →
  get_messages_for_space (serve st) fuel space date_start date_end =
  Some (List.filter (strictly_between st date_start date_end) (stored st space)).
Proof.
  intros Hn Hfuel. unfold get_messages_for_space.
  rewrite fetch_pages_serve; [|done|].
  - cbn [default drop app]. by rewrite selected_time_filter.
  - cbn [default]. rewrite selected_time_filter.
    pose proof (List.filter_length_le
      (strictly_between st date_start date_end) (stored st space)). lia.
Qed.

(** [get_tasks] reconstructs the tasks from the messages so retrieved. *)
Lemma get_tasks_serve rank st fuel space start_date end_date :
  0 < page_size st →
  length (stored st space) < fuel →
  get_tasks rank (serve st) fuel space start_date end_date =
  Some (get_tasks_of rank space
          (List.filter (strictly_between st start_date end_date) (stored st space))).
Proof.
  intros Hn Hfuel. unfold get_tasks.
  by rewrite get_messages_for_space_serve.
Qed.

(** C4, as amended.  With a service that answers in pages of at least one
    message, and fuel for every page, the retrieval returns the stored
    messages whose [createTime] lies strictly between the two dates, in the
    order of the store: both comparisons of the filter are strict. *)
Theorem retrieval_is_strict (st : store) (fuel : nat)
    (space date_start date_end : string) :
  0 < page_size st →
  length (stored st space) < fuel →
  get_messages_for_space (serve st) fuel space date_start date_end =
  Some (List.filter (strictly_between st date_start date_end) (stored st space)).
Proof. apply get_messages_for_space_serve. Qed.

Lemma retrieval_is_strict_witness :
  get_messages_for_space (serve january) 5 "spaces/S"
    "2024-01-01T00:00:00Z" "2024-02-01T00:00:00Z" =
  Some (List.filter
          (strictly_between january "2024-01-01T00:00:00Z" "2024-02-01T00:00:00Z")
          (stored january "spaces/S")).
Proof.
  apply (retrieval_is_strict january 5 "spaces/S"); vm_compute; lia.
Defined.

(** C4, as stated, fails: the message created at the start date is in the
    half-open interval and is not retrieved. *)
Lemma retrieval_counterexample :
  let first := posted "2024-01-01T00:00:00Z" in
  first ∈ stored january "spaces/S" ∧
  half_open january "2024-01-01T00:00:00Z" "2024-02-01T00:00:00Z" first = true ∧
  get_messages_for_space (serve january) 5 "spaces/S"
    "2024-01-01T00:00:00Z" "2024-02-01T00:00:00Z" =
  Some [ posted "2024-01-15T12:00:00Z"; posted "2024-01-20T08:30:00Z" ].
Proof.
  split; [apply list_elem_of_here|]. split; reflexivity.
Qed.

(** * Aggregation *)

Lemma count_key_received a tasks :
  count_key a (assignee <$> tasks) = received_by a tasks.
Proof.
  unfold count_key, received_by.
  induction tasks as [|t tasks IH]; [done|].
  rewrite filter_cons. cbn [fmap list_fmap List.filter].
  destruct (String.eqb_spec a (assignee t)) as [->|Hne].
  - rewrite decide_True by done. cbn. by rewrite <- IH.
  - rewrite decide_False by congruence. done.
Qed.

Lemma count_key_completed a tasks :
  count_key a (assignee <$>
    List.filter (λ t, String.eqb (status t) "COMPLETED") tasks)
  = completed_by a tasks.
Proof.
  unfold count_key, completed_by.
  induction tasks as [|t tasks IH]; [done|].
  rewrite filter_cons. cbn [List.filter].
  destruct (String.eqb_spec (status t) "COMPLETED") as [Hs|Hs].
  - cbn [fmap list_fmap List.filter].
    destruct (String.eqb_spec a (assignee t)) as [->|Hne].
    + rewrite decide_True by done. cbn. by rewrite <- IH.
    + rewrite decide_False by (intros [??]; congruence). done.
  - rewrite decide_False by (intros [??]; congruence). done.
Qed.

Lemma count_key_absent k keys : k ∉ keys → count_key k keys = 0.
Proof.
  unfold count_key. induction keys as [|x keys IH]; [done|].
  intros H. cbn [List.filter].
  destruct (String.eqb_spec k x) as [->|Hne]; [set_solver|].
  apply IH. set_solver.
Qed.

Lemma count_key_present k keys : k ∈ keys → 0 < count_key k keys.
Proof.
  unfold count_key. induction keys as [|x keys IH]; [by intros ?%elem_of_nil|].
  intros H. cbn [List.filter].
  destruct (String.eqb_spec k x) as [->|Hne]; [cbn; lia|].
  apply IH. set_solver.
Qed.

Lemma groupby_size_labels keys :
  (groupby_size keys).*1 = merge_sort String.le (remove_dups keys).
Proof.
  unfold groupby_size. rewrite <- list_fmap_compose.
  rewrite <- (list_fmap_id (merge_sort _ _)) at 2.
  by apply list_fmap_ext.
Qed.

Lemma elem_of_groupby_labels k keys : k ∈ (groupby_size keys).*1 ↔ k ∈ keys.
Proof.
  by rewrite groupby_size_labels, merge_sort_Permutation, elem_of_remove_dups.
Qed.

Lemma NoDup_groupby_labels keys : NoDup (groupby_size keys).*1.
Proof.
  rewrite groupby_size_labels, merge_sort_Permutation. apply NoDup_remove_dups.
Qed.

Lemma at_label_fmap (f : string → nat) k (labels : list string) :
  at_label k ((λ x, (x, f x)) <$> labels) =
  if decide (k ∈ labels) then Some (f k) else None.
Proof.
  induction labels as [|x labels IH]; [done|].
  cbn [fmap list_fmap at_label].
  destruct (String.eqb_spec k x) as [->|Hne].
  - rewrite decide_True by set_solver. done.
  - fold (fmap (λ x, (x, f x)) labels). rewrite IH.
    destruct (decide (k ∈ labels)).
    + rewrite decide_True by set_solver. done.
    + rewrite decide_False by set_solver. done.
Qed.

(** Reading the size of a group, with 0 for a group that is not there. *)
Lemma at_label_groupby k keys :
  default 0 (at_label k (groupby_size keys)) = count_key k keys.
Proof.
  unfold groupby_size. rewrite at_label_fmap.
  destruct (decide (k ∈ _)) as [|Hout]; [done|].
  rewrite merge_sort_Permutation, elem_of_remove_dups in Hout.
  by rewrite count_key_absent.
Qed.

Lemma list_difference_covered (l k : list string) :
  (∀ x, x ∈ l → x ∈ k) → list_difference l k = [].
Proof.
  intros H. apply elem_of_nil_inv. intros x [Hx Hk]%list_elem_of_difference.
  auto.
Qed.

(** The rows of a report for a batch that is not empty. *)
Lemma analyze_tasks_rows tasks :
  rows (analyze_tasks tasks) =
  (λ k, {| row_assignee := k;
           tasks_received := received_by k tasks;
           tasks_completed := completed_by k tasks;
           completion_rate :=
             Qdiv (inject_Z (Z.of_nat (completed_by k tasks)))
                  (inject_Z (Z.of_nat (received_by k tasks))) |})
  <$> merge_sort String.le (remove_dups (assignee <$> tasks)).
Proof.
  destruct tasks as [|t0 tasks0] eqn:Heq; [done|]. rewrite <- Heq. clear Heq.
  unfold analyze_tasks.
  destruct tasks as [|t tasks'] eqn:Heq; [done|]. rewrite <- Heq. clear Heq.
  cbn [rows]. rewrite list_difference_covered.
  - rewrite app_nil_r, groupby_size_labels.
    apply list_fmap_ext. intros _ k _. unfold joined_row.
    by rewrite !at_label_groupby, count_key_received, count_key_completed.
  - intros k. rewrite !elem_of_groupby_labels.
    intros (x & -> & Hx)%list_elem_of_fmap.
    apply list_elem_of_fmap_2. apply list_elem_of_In, List.filter_In in Hx as [Hx _].
    by apply list_elem_of_In.
Qed.

(** C9.  The report of an empty collection is the empty table with the
    four columns [assignee], [tasks_received], [tasks_completed] and
    [completion_rate], in this order.  For every collection the report has
    these columns and one row for each assignee of the collection, and a row
    holds the number of the assignee's tasks, the number of those that are
    completed, and the quotient of the two as the rate. *)
Theorem aggregation_correct (tasks : list task) :
  analyze_tasks [] =
    {| columns := ["assignee"; "tasks_received"; "tasks_completed"; "completion_rate"];
       rows := [] |} ∧
  columns (analyze_tasks tasks) =
    ["assignee"; "tasks_received"; "tasks_completed"; "completion_rate"] ∧
  NoDup (row_assignee <$> rows (analyze_tasks tasks)) ∧
  (∀ a, a ∈ row_assignee <$> rows (analyze_tasks tasks) ↔ a ∈ assignee <$> tasks) ∧
  (∀ row, row ∈ rows (analyze_tasks tasks) →
     tasks_received row = received_by (row_assignee row) tasks ∧
     tasks_completed row = completed_by (row_assignee row) tasks ∧
     0 < tasks_received row ∧
     completion_rate row =
       Qdiv (inject_Z (Z.of_nat (tasks_completed row)))
            (inject_Z (Z.of_nat (tasks_received row)))).
Proof.
  split; [done|]. split; [by destruct tasks|].
  rewrite analyze_tasks_rows, <- list_fmap_compose.
  assert (∀ l : list string,
    row_assignee ∘ (λ k, {| row_assignee := k;
           tasks_received := received_by k tasks;
           tasks_completed := completed_by k tasks;
           completion_rate :=
             Qdiv (inject_Z (Z.of_nat (completed_by k tasks)))
                  (inject_Z (Z.of_nat (received_by k tasks))) |}) <$> l = l) as Hfst.
  { intros l. rewrite <- (list_fmap_id l) at 2. by apply list_fmap_ext. }
  rewrite Hfst. split; [|split].
  - rewrite merge_sort_Permutation. apply NoDup_remove_dups.
  - intros a. by rewrite merge_sort_Permutation, elem_of_remove_dups.
  - intros row (k & -> & Hk)%list_elem_of_fmap. cbn.
    rewrite merge_sort_Permutation, elem_of_remove_dups in Hk.
    repeat split. rewrite <- count_key_received. by apply count_key_present.
Qed.

(** The example of the specification. *)
Example aggregation_example :
  rows (analyze_tasks
    [ {| id := "1"; assignee := "A"; status := "COMPLETED";
         created_time := ""; space_name := "" |};
      {| id := "2"; assignee := "A"; status := "OPEN";
         created_time := ""; space_name := "" |};
      {| id := "3"; assignee := "B"; status := "COMPLETED";
         created_time := ""; space_name := "" |} ])
  = [ {| row_assignee := "A"; tasks_received := 2; tasks_completed := 1;
         completion_rate := Qdiv (inject_Z 1) (inject_Z 2) |};
      {| row_assignee := "B"; tasks_received := 1; tasks_completed := 1;
         completion_rate := Qdiv (inject_Z 1) (inject_Z 1) |} ].
Proof. reflexivity. Qed.

(** * Retrying *)

Lemma retry_loop_success {E A : Type} max_retries delay (func : nat → E + A) k v
    fuel retries waited :
  (Z.of_nat k < max_retries)%Z →
  func k = inr v →
  (∀ j, j < k → ∃ e, func j = inl e) →
  retries ≤ k →
  k - retries < fuel →
  retry_loop max_retries delay func fuel retries waited =
  Some (Retried (inr (Some v)) (S k) (waited + (k - retries) * delay)).
Proof.
  intros Hk Hv Hfail. revert retries waited.
  induction fuel as [|fuel IH]; intros retries waited Hle Hfuel; [lia|].
  cbn [retry_loop]. rewrite (proj2 (Z.ltb_lt _ _)) by lia.
  destruct (decide (retries = k)) as [->|Hne].
  - rewrite Hv. do 2 f_equal. lia.
  - destruct (Hfail retries) as [e ->]; [lia|].
    rewrite (proj2 (Z.eqb_neq _ _)) by lia.
    rewrite IH by lia. do 2 f_equal.
    replace (k - retries) with (S (k - S retries)) by lia. lia.
Qed.

(** X1.  When the call number [k] of the decorated function is the first
    that does not raise, and [k] is below [max_retries], the wrapper returns
    its value after [k + 1] calls and [k] sleeps of [delay] seconds. *)
Theorem retry_returns_first_success {E A : Type} (max_retries : Z) (delay : nat)
    (func : nat → E + A) (k : nat) (v : A) :
  (Z.of_nat k < max_retries)%Z →
  func k = inr v →
  (∀ j, j < k → ∃ e, func j = inl e) →
  retry_on_error max_retries delay func =
  Some (Retried (inr (Some v)) (S k) (k * delay)).
Proof.
  intros Hk Hv Hfail. unfold retry_on_error.
  rewrite (retry_loop_success max_retries delay func k v) by (done || lia).
  do 2 f_equal. lia.
Qed.

Lemma retry_returns_first_success_witness :
  retry_on_error 3 30 (λ k, if k <? 2 then inl IndexError else inr "spaces") =
  Some (Retried (inr (Some "spaces")) 3 (2 * 30)).
Proof.
  apply (retry_returns_first_success 3 30
           (λ k, if k <? 2 then inl IndexError else inr "spaces") 2 "spaces").
  - lia.
  - reflexivity.
  - intros j Hj. exists IndexError.
    by rewrite (proj2 (Nat.ltb_lt _ _)) by lia.
Defined.

Lemma retry_loop_exhausted {E A : Type} max_retries delay (func : nat → E + A) e
    fuel retries waited :
  func (Z.to_nat max_retries - 1) = inl e →
  (∀ j, (Z.of_nat j < max_retries)%Z → ∃ e', func j = inl e') →
  (Z.of_nat retries < max_retries)%Z →
  Z.to_nat max_retries - retries ≤ fuel →
  retry_loop max_retries delay func fuel retries waited =
  Some (Retried (inl e) (Z.to_nat max_retries)
          (waited + (Z.to_nat max_retries - 1 - retries) * delay)).
Proof.
  intros He Hfail. revert retries waited.
  induction fuel as [|fuel IH]; intros retries waited Hlt Hfuel; [lia|].
  cbn [retry_loop]. rewrite (proj2 (Z.ltb_lt _ _)) by lia.
  destruct (decide (S retries = Z.to_nat max_retries)) as [Heq|Hne].
  - replace retries with (Z.to_nat max_retries - 1) at 1 by lia. rewrite He.
    rewrite (proj2 (Z.eqb_eq _ _)) by lia.
    rewrite Heq. do 2 f_equal. lia.
  - destruct (Hfail retries) as [e' ->]; [lia|].
    rewrite (proj2 (Z.eqb_neq _ _)) by lia.
    rewrite IH by lia. do 2 f_equal.
    replace (Z.to_nat max_retries - 1 - retries)
      with (S (Z.to_nat max_retries - 1 - S retries)) by lia.
    lia.
Qed.

(** X2.  When each of the [max_retries] calls raises, the wrapper raises
    the exception of the last one, after [max_retries] calls and one sleep
    fewer: the last failure is not followed by a sleep. *)
Theorem retry_raises_last_exception {E A : Type} (max_retries : Z) (delay : nat)
    (func : nat → E + A) (e : E) :
  (0 < max_retries)%Z →
  func (Z.to_nat max_retries - 1) = inl e →
  (∀ j, (Z.of_nat j < max_retries)%Z → ∃ e', func j = inl e') →
  retry_on_error max_retries delay func =
  Some (Retried (inl e) (Z.to_nat max_retries) ((Z.to_nat max_retries - 1) * delay)).
Proof.
  intros Hpos He Hfail. unfold retry_on_error.
  rewrite (retry_loop_exhausted max_retries delay func e) by (done || lia).
  do 2 f_equal. lia.
Qed.

Lemma retry_raises_last_exception_witness :
  @retry_on_error exn string 3 30 (λ k, inl (KeyError (zero_padded 1 k))) =
  Some (Retried (inl (KeyError "2")) 3 ((3 - 1) * 30)).
Proof.
  apply (retry_raises_last_exception 3 30
           (λ k, inl (KeyError (zero_padded 1 k)) : exn + string) (KeyError "2")).
  - lia.
  - reflexivity.
  - intros j _. by eexists.
Defined.

Lemma retry_loop_bounds {E A : Type} max_retries delay (func : nat → E + A)
    fuel retries waited :
  Z.to_nat max_retries - retries < fuel →
  ∃ r, retry_loop max_retries delay func fuel retries waited = Some r ∧
       ((max_retries ≤ Z.of_nat retries)%Z → r = Retried (inr None) retries waited) ∧
       ((Z.of_nat retries < max_retries)%Z →
        outcome r ≠ inr None ∧ retries < calls r ∧
        (Z.of_nat (calls r) ≤ max_retries)%Z ∧
        slept r = waited + (calls r - S retries) * delay).
Proof.
  revert retries waited.
  induction fuel as [|fuel IH]; intros retries waited Hfuel; [lia|].
  cbn [retry_loop].
  destruct (Z.ltb_spec (Z.of_nat retries) max_retries) as [Hlt|Hge].
  - destruct (func retries) as [e|v].
    + destruct (Z.eqb_spec (Z.of_nat (S retries)) max_retries) as [Heq|Hne].
      * eexists. split; [done|]. split; [lia|]. intros _. cbn.
        repeat split; try done; lia.
      * destruct (IH (S retries) (waited + delay)) as (r & -> & _ & Hr); [lia|].
        exists r. split; [done|]. split; [lia|]. intros _.
        destruct Hr as (Hout & Hcalls & Hmax & Hslept); [lia|].
        repeat split; try done; try lia.
        rewrite Hslept.
        replace (calls r - S retries) with (S (calls r - S (S retries))) by lia.
        lia.
    + eexists. split; [done|]. split; [lia|]. intros _. cbn.
      repeat split; try done; lia.
  - eexists. split; [done|]. split; [done | lia].
Qed.

(** X3.  For every integer [max_retries], negative ones included, the
    wrapper comes to an end.  It calls the decorated function at most
    [max_retries] times and never when [max_retries] is 0 or less, and it
    sleeps [delay] seconds between two calls and at no other time.  It falls
    out of the loop, to the [return None] after it, exactly when
    [max_retries] is 0 or less; this is not the case of a decorated function
    that itself returns a value [None], which is an [inr (Some _)]. *)
Theorem retry_is_bounded {E A : Type} (max_retries : Z) (delay : nat)
    (func : nat → E + A) :
  ∃ r, retry_on_error max_retries delay func = Some r ∧
       (Z.of_nat (calls r) ≤ Z.max 0 max_retries)%Z ∧
       slept r = (calls r - 1) * delay ∧
       (outcome r = inr None ↔ (max_retries ≤ 0)%Z) ∧
       ((max_retries ≤ 0)%Z → calls r = 0).
Proof.
  unfold retry_on_error.
  destruct (retry_loop_bounds max_retries delay func (S (Z.to_nat max_retries)) 0 0)
    as (r & Hr & Hout & Hin); [lia|].
  exists r. split; [done|].
  destruct (Z.le_gt_cases max_retries 0) as [Hle|Hgt].
  - rewrite (Hout Hle). cbn. repeat split; try done; lia.
  - destruct (Hin Hgt) as (Hsome & Hcalls & Hmax & Hslept).
    split; [lia|]. split; [by rewrite Hslept|]. split; [split|]; [done|lia|lia].
Qed.

(** A negative [max_retries]: the function is not called, and the wrapper
    returns [None]. *)
Example retry_negative :
  @retry_on_error exn string (-1) 30 (λ _, inr "spaces") = Some (Retried (inr None) 0 0).
Proof. reflexivity. Qed.

(** * The list of spaces *)

Lemma get_spaces_from_serve all n fuel page_token acc :
  0 < n →
  length all - default 0 page_token < fuel →
  get_spaces_from (serve_spaces all n) fuel page_token acc =
  Some (acc ++ List.filter is_SPACE (drop (default 0 page_token) all)).
Proof.
  intros Hn. revert page_token acc.
  induction fuel as [|fuel IH]; intros page_token acc Hfuel; [lia|].
  cbn [get_spaces_from serve_spaces spaces spaces_token].
  set (from := default 0 page_token) in *.
  destruct (Nat.ltb_spec (from + n) (length all)) as [Hlt|Hge].
  - destruct (from + n) as [|k] eqn:Hk; [lia|].
    rewrite IH by (cbn; lia). change (default 0 (Some (S k))) with (S k).
    rewrite <- Hk, <- app_assoc, <- List.filter_app, <- drop_drop, take_drop. done.
  - rewrite take_ge by (rewrite length_drop; lia). done.
Qed.

(** X4.  From a service that answers in pages of at least one space,
    [get_spaces] returns the spaces of type [SPACE], all of them and no
    other, in the order of the service. *)
Theorem get_spaces_keeps_SPACE (all : list chat_space) (n fuel : nat) :
  0 < n →
  length all < fuel →
  get_spaces (serve_spaces all n) fuel = Some (List.filter is_SPACE all).
Proof.
  intros Hn Hfuel. unfold get_spaces.
  rewrite get_spaces_from_serve by (cbn; lia). done.
Qed.

Lemma get_spaces_keeps_SPACE_witness :
  get_spaces (serve_spaces three_spaces 2) 4 = Some (List.filter is_SPACE three_spaces).
Proof. apply (get_spaces_keeps_SPACE three_spaces 2 4); cbn; lia. Defined.

(** * The people of the spaces *)

Lemma mention_of_total txt :
  Str.contains "@" txt = true → is_ok (mention_of txt).
Proof.
  intros [r Hr]%contains_char_true.
  rewrite (mention_of_mention _ _ Hr). by eexists.
Qed.

Lemma scan_people_spec (people : gset string) (msgs : list message) (x : string) :
  x ∈ scan_people people msgs ↔ x ∈ people ∨ ∃ m, m ∈ msgs ∧ named_in m x.
Proof.
  revert people. induction msgs as [|m msgs IH]; intros people.
  - cbn. split; [by left | intros [?|(m & Hm & _)]; [done | by apply elem_of_nil in Hm]].
  - cbn [scan_people].
    assert (∀ X : gset string,
      x ∈ match sender_displayName m with Some name => {[name]} ∪ X | None => X end
      ↔ x ∈ X ∨ sender_displayName m = Some x) as Hsender.
    { intros X. destruct (sender_displayName m) as [n|].
      - rewrite elem_of_union, elem_of_singleton. split.
        + intros [->|?]; auto.
        + intros [?|[= ->]]; auto.
      - split; [auto | by intros [?|?]]. }
    destruct (text m) as [txt|] eqn:Htxt.
    + destruct (Str.contains "via Tasks" txt) eqn:Hvia; cbn [andb].
      * destruct (Str.contains "@" txt) eqn:Hat.
        -- destruct (mention_of_total txt Hat) as [a Ha]. rewrite Ha.
           rewrite IH, elem_of_union, elem_of_singleton, Hsender. split.
           ++ intros [[->|[?|Hs]]|(m' & Hm' & Hn)].
              ** right. exists m. split; [apply list_elem_of_here|].
                 right. exists txt. done.
              ** by left.
              ** right. exists m. split; [apply list_elem_of_here | by left].
              ** right. exists m'. split; [by apply list_elem_of_further | done].
           ++ intros [?|(m' & [->|Hm']%elem_of_cons & Hn)].
              ** left. right. by left.
              ** destruct Hn as [Hs|(txt' & Ht' & _ & _ & Hx)].
                 --- left. right. by right.
                 --- left. left. congruence.
              ** right. eauto.
        -- rewrite IH, Hsender. split.
           ++ intros [[?|Hs]|(m' & Hm' & Hn)].
              ** by left.
              ** right. exists m. split; [apply list_elem_of_here | by left].
              ** right. exists m'. split; [by apply list_elem_of_further | done].
           ++ intros [?|(m' & [->|Hm']%elem_of_cons & Hn)].
              ** left. by left.
              ** destruct Hn as [Hs|(txt' & Ht' & _ & Hat' & _)].
                 --- left. by right.
                 --- congruence.
              ** right. eauto.
      * rewrite IH, Hsender. split.
        -- intros [[?|Hs]|(m' & Hm' & Hn)].
           ++ by left.
           ++ right. exists m. split; [apply list_elem_of_here | by left].
           ++ right. exists m'. split; [by apply list_elem_of_further | done].
        -- intros [?|(m' & [->|Hm']%elem_of_cons & Hn)].
           ++ left. by left.
           ++ destruct Hn as [Hs|(txt' & Ht' & Hv' & _ & _)].
              ** left. by right.
              ** congruence.
           ++ right. eauto.
    + rewrite IH, Hsender. split.
      * intros [[?|Hs]|(m' & Hm' & Hn)].
        -- by left.
        -- right. exists m. split; [apply list_elem_of_here | by left].
        -- right. exists m'. split; [by apply list_elem_of_further | done].
      * intros [?|(m' & [->|Hm']%elem_of_cons & Hn)].
        -- left. by left.
        -- destruct Hn as [Hs|(txt' & Ht' & _)].
           ++ left. by right.
           ++ congruence.
        -- right. eauto.
Qed.

(** X5.  The scan of the messages of a space adds to the set the display
    name of every sender and the mention of every task text that has an [@],
    and nothing else; no message makes it stop early. *)
Theorem scan_people_adds_senders_and_mentions (people : gset string)
    (msgs : list message) (x : string) :
  x ∈ scan_people people msgs ↔ x ∈ people ∨ ∃ m, m ∈ msgs ∧ named_in m x.
Proof. apply scan_people_spec. Qed.

Lemma get_people_from_spec st fuel start_date end_date people (l : list chat_space) :
  0 < page_size st →
  (∀ sp, sp ∈ l → length (stored st (space_id sp)) < fuel) →
  ∃ ps, get_people_from (serve st) fuel start_date end_date people l = Some ps ∧
    ∀ x, x ∈ ps ↔
      x ∈ people ∨
      ∃ sp m, sp ∈ l ∧ is_SPACE sp = true ∧
        m ∈ List.filter (strictly_between st start_date end_date)
                        (stored st (space_id sp)) ∧
        named_in m x.
Proof.
  intros Hn. revert people. induction l as [|sp l IH]; intros people Hfuel.
  - exists people. split; [done|]. intros x. split; [by left|].
    intros [?|(sp & m & Hsp & _)]; [done | by apply elem_of_nil in Hsp].
  - cbn [get_people_from]. destruct (is_SPACE sp) eqn:Hsp.
    + rewrite get_messages_for_space_serve by (done || apply Hfuel; set_solver).
      cbn [mbind option_bind].
      destruct (IH (scan_people people
                     (List.filter (strictly_between st start_date end_date)
                                  (stored st (space_id sp)))))
        as (ps & -> & Hps); [intros; apply Hfuel; set_solver|].
      exists ps. split; [done|]. intros x.
      rewrite Hps, scan_people_spec. split.
      * intros [[?|(m & Hm & Hx)]|(sp' & m & Hsp' & ? & ? & ?)].
        -- by left.
        -- right. exists sp, m. split; [set_solver|done].
        -- right. exists sp', m. split; [set_solver|done].
      * intros [?|(sp' & m & [->|Hsp']%elem_of_cons & ? & ? & ?)].
        -- left. by left.
        -- left. right. eauto.
        -- right. eauto 10.
    + destruct (IH people) as (ps & -> & Hps); [intros; apply Hfuel; set_solver|].
      exists ps. split; [done|]. intros x. rewrite Hps. split.
      * intros [?|(sp' & m & Hsp' & ? & ? & ?)]; [by left|].
        right. exists sp', m. split; [set_solver|done].
      * intros [?|(sp' & m & [->|Hsp']%elem_of_cons & ? & ? & ?)];
          [by left | congruence | right; eauto 10].
Qed.

(** X6.  [get_people] returns, without repetition, the names that the
    messages retrieved from the spaces of type [SPACE] bring in: the senders
    and the mentions of the task texts.  A space of another type, or without
    a type, brings in nothing. *)
Theorem get_people_collects (rank : string → nat) (st : store) (fuel : nat)
    (l : list chat_space) (start_date end_date : string) :
  0 < page_size st →
  (∀ sp, sp ∈ l → length (stored st (space_id sp)) < fuel) →
  ∃ ps, get_people rank (serve st) fuel l start_date end_date = Some ps ∧
    NoDup ps ∧
    ∀ x, x ∈ ps ↔
      ∃ sp m, sp ∈ l ∧ is_SPACE sp = true ∧
        m ∈ List.filter (strictly_between st start_date end_date)
                        (stored st (space_id sp)) ∧
        named_in m x.
Proof.
  intros Hn Hfuel. unfold get_people.
  destruct (get_people_from_spec st fuel start_date end_date ∅ l Hn Hfuel)
    as (ps & -> & Hps).
  exists (iterate rank ps). split; [done|]. split.
  - unfold iterate. rewrite merge_sort_Permutation. apply NoDup_elements.
  - intros x. rewrite elem_of_iterate, Hps. split; [|by right].
    intros [Hx|?]; [|done]. by apply not_elem_of_empty in Hx.
Qed.

Lemma get_people_collects_witness :
  ∃ ps, get_people String.length (serve january) 5 three_spaces
          "2024-01-01T00:00:00Z" "2024-02-01T00:00:00Z" = Some ps ∧
    NoDup ps ∧
    ∀ x, x ∈ ps ↔
      ∃ sp m, sp ∈ three_spaces ∧ is_SPACE sp = true ∧
        m ∈ List.filter
              (strictly_between january "2024-01-01T00:00:00Z" "2024-02-01T00:00:00Z")
              (stored january (space_id sp)) ∧
        named_in m x.
Proof.
  apply (get_people_collects String.length january 5 three_spaces).
  - cbn. lia.
  - intros sp _. cbn. lia.
Defined.

(** * More about [get_tasks] *)

Lemma collect_created space b m b' t :
  collect space b m = Ok b' →
  t ∈ tasks b' → t ∈ tasks b ∨ created_by space m t.
Proof.
  intros H Ht. unfold created_by. collect_cases; try (by left).
  apply elem_of_app in Ht as [?|Ht]; [by left|].
  apply list_elem_of_singleton in Ht as ->. right. cbn. done.
Qed.

Lemma collect_all_created space b l b' t :
  collect_all space b l = Ok b' →
  t ∈ tasks b' → t ∈ tasks b ∨ ∃ m, m ∈ l ∧ created_by space m t.
Proof.
  revert b. induction l as [|m l IH]; intros b H Ht; simplify_eq/=; [by left|].
  destruct (collect space b m) as [b1|] eqn:Hm; simplify_eq/=.
  destruct (IH _ H Ht) as [Ht1|(m' & ? & ?)].
  - destruct (collect_created _ _ _ _ _ Hm Ht1); [by left|].
    right. exists m. split; [set_solver|done].
  - right. exists m'. split; [set_solver|done].
Qed.

Lemma derived_refl t : derived t t.
Proof. unfold derived. auto. Qed.

Lemma derived_trans z y x : derived z y → derived y x → derived z x.
Proof. unfold derived. intros (?&?&?&?) (?&?&?&?). repeat split; try congruence.
  naive_solver congruence. Qed.

Lemma apply_status_status b tid t :
  status (apply_status b tid t) = status t ∨
  status (apply_status b tid t) = "COMPLETED" ∨
  status (apply_status b tid t) = "OPEN".
Proof. unfold apply_status. repeat case_match; auto. Qed.

Lemma visit_derived rank b i t l l' :
  l !! i = Some t →
  visit rank b i t l = Ok l' →
  ∀ x, x ∈ l' → ∃ y, y ∈ l ∧ derived y x.
Proof.
  intros Hi H. unfold visit in H.
  destruct (if bool_decide (id t ∈ deleted_tasks b)
            then remove_task i t l else (l, Some i)) as [l1 pos] eqn:Hrm.
  assert (∀ x, x ∈ l1 → x ∈ l) as Hsub.
  { case_bool_decide; [by eapply remove_task_shrinks | by simplify_eq]. }
  destruct (apply_assigned _ t) as [t1|] eqn:Ht1; simplify_eq/=.
  apply apply_assigned_keeps in Ht1 as (Hid & Hst & Hct & Hsp).
  assert (derived t (apply_status b (id t) t1)) as Hd.
  { unfold derived. rewrite apply_status_id.
    pose proof (apply_status_status b (id t) t1) as Hs.
    assert (created_time (apply_status b (id t) t1) = created_time t1 ∧
            space_name (apply_status b (id t) t1) = space_name t1) as [-> ->]
      by (unfold apply_status; by repeat case_match).
    rewrite Hst in Hs. done. }
  intros x Hx. destruct pos as [p|].
  - apply list_elem_of_insert_inv in Hx as [->|Hx].
    + exists t. split; [by eapply list_elem_of_lookup_2 | done].
    + exists x. split; [auto | apply derived_refl].
  - exists x. split; [auto | apply derived_refl].
Qed.

Lemma reconcile_derived rank b fuel i l r :
  reconcile rank b fuel i l = Ok r →
  length r ≤ length l ∧ ∀ x, x ∈ r → ∃ y, y ∈ l ∧ derived y x.
Proof.
  revert i l. induction fuel as [|fuel IH]; intros i l H.
  - simplify_eq/=. split; [done|]. intros x Hx. exists x. eauto using derived_refl.
  - rewrite reconcile_S in H. destruct (l !! i) as [t|] eqn:Hi.
    + destruct (visit rank b i t l) as [l'|] eqn:Hv; simplify_eq/=.
      destruct (IH _ _ H) as [Hlen Hder].
      pose proof (visit_shrinks _ _ _ _ _ _ Hi Hv) as [Hlen' _].
      split; [lia|]. intros x Hx.
      destruct (Hder x Hx) as (y & Hy & Hyx).
      destruct (visit_derived _ _ _ _ _ _ Hi Hv y Hy) as (z & Hz & Hzy).
      exists z. eauto using derived_trans.
    + simplify_eq. split; [done|]. intros x Hx. exists x. eauto using derived_refl.
Qed.

Lemma get_tasks_of_origin (rank : string → nat) (space : string)
    (l : list message) (ts : list task) :
  get_tasks_of rank space l = Ok ts →
  length ts ≤ length (created_ids l) ∧
  ∀ t, t ∈ ts →
    space_name t = space ∧
    (status t = "OPEN" ∨ status t = "COMPLETED") ∧
    ∃ m, m ∈ l ∧ carries m CREATED (id t) ∧ createTime m = Some (created_time t).
Proof.
  intros Hts. unfold get_tasks_of in Hts.
  destruct (collect_all space no_buckets l) as [b|] eqn:Hb; simplify_eq/=.
  destruct (reconcile_derived _ _ _ _ _ _ Hts) as [Hlen Hder]. split.
  - rewrite <- (length_fmap id (tasks b)) in Hlen.
    by rewrite (collect_all_ids _ _ _ _ Hb) in Hlen.
  - intros t Ht. destruct (Hder t Ht) as (y & Hy & Hid & Hct & Hsp & Hst).
    destruct (collect_all_created _ _ _ _ _ Hb Hy) as [Hin|(m & Hm & Hc & Htime & Hs & Ho)].
    { by apply elem_of_nil in Hin. }
    split; [congruence|]. split.
    + rewrite Ho in Hst. naive_solver.
    + exists m. rewrite Hid, Hct. done.
Qed.

(** X7.  Every task that [get_tasks] returns stems from a creation message
    of the batch: it has that message's thread id and creation time, the space
    name given to the call, and the status ["OPEN"] or ["COMPLETED"]; and
    there are never more tasks than creation events. *)
Theorem tasks_stem_from_creations (rank : string → nat) (space : string)
    (l : list message) (ts : list task) :
  get_tasks_of rank space l = Ok ts →
  length ts ≤ length (created_ids l) ∧
  ∀ t, t ∈ ts →
    space_name t = space ∧
    (status t = "OPEN" ∨ status t = "COMPLETED") ∧
    ∃ m, m ∈ l ∧ carries m CREATED (id t) ∧ createTime m = Some (created_time t).
Proof. apply get_tasks_of_origin. Qed.

Lemma tasks_stem_from_creations_witness :
  length [ {| id := "T1"; assignee := "Ann"; status := "OPEN";
              created_time := "2024-01-05T10:00:00Z"; space_name := "spaces/S" |} ]
    ≤ length (created_ids unknown_references) ∧
  ∀ t, t ∈ [ {| id := "T1"; assignee := "Ann"; status := "OPEN";
                created_time := "2024-01-05T10:00:00Z"; space_name := "spaces/S" |} ] →
    space_name t = "spaces/S" ∧
    (status t = "OPEN" ∨ status t = "COMPLETED") ∧
    ∃ m, m ∈ unknown_references ∧ carries m CREATED (id t) ∧
         createTime m = Some (created_time t).
Proof.
  apply (tasks_stem_from_creations String.length "spaces/S" unknown_references).
  reflexivity.
Defined.

(** ** Reopenings *)

Lemma collect_same_but_reopened space b1 b2 m c1 :
  same_but_reopened b1 b2 →
  collect space b1 m = Ok c1 →
  ∃ c2, collect space b2 m = Ok c2 ∧ same_but_reopened c1 c2.
Proof.
  intros (Ht & Hc & Hd & Ha) H. unfold same_but_reopened.
  collect_cases; eexists; (split; [reflexivity|]); cbn;
    rewrite ?Ht, ?Hc, ?Hd, ?Ha; done.
Qed.

Lemma collect_reopening space b m c :
  event_kind m = Some REOPENED →
  collect space b m = Ok c →
  same_but_reopened c b.
Proof. intros Hk H. unfold same_but_reopened. collect_cases. Qed.

Lemma same_but_reopened_trans b1 b2 b3 :
  same_but_reopened b1 b2 → same_but_reopened b2 b3 → same_but_reopened b1 b3.
Proof. unfold same_but_reopened. intros (?&?&?&?) (?&?&?&?). repeat split; congruence. Qed.

Lemma collect_all_without_reopenings space b1 b2 l c1 :
  same_but_reopened b1 b2 →
  collect_all space b1 l = Ok c1 →
  ∃ c2, collect_all space b2 (filter not_reopening l) = Ok c2 ∧
        same_but_reopened c1 c2.
Proof.
  revert b1 b2. induction l as [|m l IH]; intros b1 b2 Hb H; simplify_eq/=.
  - exists b2. done.
  - destruct (collect space b1 m) as [d1|] eqn:Hm; simplify_eq/=.
    rewrite filter_cons. destruct (decide (not_reopening m)) as [Hn|Hr].
    + destruct (collect_same_but_reopened _ _ _ _ _ Hb Hm) as (d2 & Hd2 & Hd).
      cbn [collect_all]. rewrite Hd2. cbn [rbind]. eauto.
    + apply dec_stable in Hr.
      apply (IH d1 b2); [|done].
      eapply same_but_reopened_trans; [|done].
      by eapply collect_reopening.
Qed.

Lemma collect_all_open space b l b' :
  collect_all space b l = Ok b' →
  Forall (λ t, status t = "OPEN") (tasks b) →
  Forall (λ t, status t = "OPEN") (tasks b').
Proof.
  intros H Hb. apply Forall_forall. intros t Ht.
  destruct (collect_all_created _ _ _ _ _ H Ht) as [Hin|(m & _ & _ & _ & _ & Ho)].
  - rewrite Forall_forall in Hb. auto.
  - done.
Qed.

Lemma visit_same_but_reopened rank b1 b2 i t l :
  same_but_reopened b1 b2 →
  status t = "OPEN" →
  visit rank b1 i t l = visit rank b2 i t l.
Proof.
  intros (_ & Hc & Hd & Ha) Hopen. unfold visit. rewrite Hd, Ha.
  destruct (if bool_decide (id t ∈ deleted_tasks b2)
            then remove_task i t l else (l, Some i)) as [l1 pos].
  destruct (apply_assigned _ t) as [t1|] eqn:Ht1; [|done]. cbn [rbind].
  apply apply_assigned_keeps in Ht1 as (_ & Hst & _).
  rewrite !reopened_branch_is_idle, Hc by congruence. done.
Qed.

(** The tasks behind the iterator after a turn were behind it before. *)
Lemma visit_tail rank b i t l l' j x :
  l !! i = Some t →
  visit rank b i t l = Ok l' →
  S i ≤ j → l' !! j = Some x →
  ∃ j', i < j' ∧ l !! j' = Some x.
Proof.
  intros Hi H Hj Hx. unfold visit in H.
  destruct (bool_decide (id t ∈ deleted_tasks b)).
  - unfold remove_task in H.
    destruct (list_find (λ y, y = t) l) as [[k y]|] eqn:Hfind.
    + apply list_find_Some in Hfind as (Hk & _ & Hfirst).
      assert (k ≤ i) as Hki.
      { destruct (decide (k ≤ i)); [done|]. destruct (Hfirst i t); [done|lia|done]. }
      destruct (apply_assigned _ t) as [t1|]; simplify_eq/=.
      exists (S j). split; [lia|].
      destruct (k =? i) eqn:Hcmp.
      * rewrite list_lookup_delete_ge in Hx by lia. done.
      * apply Nat.eqb_neq in Hcmp.
        rewrite list_lookup_insert_ne in Hx by lia.
        rewrite list_lookup_delete_ge in Hx by lia. done.
    + destruct (apply_assigned _ t) as [t1|]; simplify_eq/=.
      rewrite list_lookup_insert_ne in Hx by lia. exists j. split; [lia|done].
  - destruct (apply_assigned _ t) as [t1|]; simplify_eq/=.
    rewrite list_lookup_insert_ne in Hx by lia. exists j. split; [lia|done].
Qed.

Lemma reconcile_same_but_reopened rank b1 b2 fuel i l :
  same_but_reopened b1 b2 →
  (∀ j t, i ≤ j → l !! j = Some t → status t = "OPEN") →
  reconcile rank b1 fuel i l = reconcile rank b2 fuel i l.
Proof.
  intros Hb. revert i l.
  induction fuel as [|fuel IH]; intros i l Hopen; [done|].
  rewrite !reconcile_S. destruct (l !! i) as [t|] eqn:Hi; [|done].
  rewrite (visit_same_but_reopened rank b1 b2) by eauto.
  destruct (visit rank b2 i t l) as [l'|] eqn:Hv; [|done]. cbn [rbind].
  apply IH. intros j x Hj Hx.
  destruct (visit_tail _ _ _ _ _ _ _ _ Hi Hv Hj Hx) as (j' & Hj' & Hx').
  apply (Hopen j'); [lia|done].
Qed.

(** X8.  Reopening events never change a result: a batch gives the tasks
    that it gives with its reopening events taken out. *)
Theorem reopenings_change_nothing (rank : string → nat) (space : string)
    (l : list message) (ts : list task) :
  get_tasks_of rank space l = Ok ts →
  get_tasks_of rank space (filter not_reopening l) = Ok ts.
Proof.
  intros Hts. unfold get_tasks_of in *.
  destruct (collect_all space no_buckets l) as [b1|] eqn:Hb1; simplify_eq/=.
  destruct (collect_all_without_reopenings space no_buckets no_buckets l b1)
    as (b2 & -> & Hb); [done..|]. cbn [rbind].
  destruct Hb as (Htasks & Hrest). rewrite <- Htasks.
  rewrite <- (reconcile_same_but_reopened rank b1 b2); [done|by split|].
  intros j t _ Hj.
  pose proof (collect_all_open _ _ _ _ Hb1 (Forall_nil_2 _)) as Hopen.
  rewrite Forall_forall in Hopen. apply Hopen. by eapply list_elem_of_lookup_2.
Qed.

Lemma reopenings_change_nothing_witness :
  get_tasks_of String.length "spaces/S" (filter not_reopening reopened_batch) =
  Ok [ {| id := "T3"; assignee := "Ann"; status := "COMPLETED";
          created_time := "2024-01-05T10:00:00Z"; space_name := "spaces/S" |} ].
Proof.
  apply (reopenings_change_nothing String.length "spaces/S" reopened_batch).
  reflexivity.
Defined.

(** ** Completions *)

Lemma collect_completed space b m b' tid :
  collect space b m = Ok b' →
  tid ∈ completed_tasks b' ↔ tid ∈ completed_tasks b ∨ carries m COMPLETED tid.
Proof.
  intros H.
  collect_cases;
    try (split; [by left | intros [?|[??]]; simplify_eq; congruence]).
  rewrite elem_of_union, elem_of_singleton. split.
  - intros [->|?]; [by right | by left].
  - intros [?|[??]]; simplify_eq; [by right | by left].
Qed.

Lemma collect_all_completed space b l b' tid :
  collect_all space b l = Ok b' →
  tid ∈ completed_tasks b' ↔
  tid ∈ completed_tasks b ∨ ∃ m, m ∈ l ∧ carries m COMPLETED tid.
Proof.
  revert b. induction l as [|m l IH]; intros b H; simplify_eq/=.
  - set_solver.
  - destruct (collect space b m) as [b1|] eqn:Hm; simplify_eq/=.
    rewrite (IH _ H), (collect_completed _ _ _ _ tid Hm). set_solver.
Qed.

(** X9.  On a readable batch without deletion events, a task comes out
    with the status ["COMPLETED"] exactly when the batch has a completion
    event for its id, and with ["OPEN"] otherwise, whatever reopening events
    there are. *)
Theorem completion_decides_status (rank : string → nat) (space : string)
    (l : list message) :
  forallb readable l = true →
  existsb (has_kind DELETED) l = false →
  ∃ ts, get_tasks_of rank space l = Ok ts ∧
    ∀ t, t ∈ ts →
      (status t = "COMPLETED" ↔ ∃ m, m ∈ l ∧ carries m COMPLETED (id t)) ∧
      (status t = "OPEN" ↔ ¬ ∃ m, m ∈ l ∧ carries m COMPLETED (id t)).
Proof.
  intros Hread Hdel.
  destruct (get_tasks_of_kept rank space l Hread Hdel) as (ts & Hts & _).
  exists ts. split; [done|]. intros t Ht.
  unfold get_tasks_of in Hts.
  destruct (collect_all space no_buckets l) as [b|] eqn:Hb; simplify_eq/=.
  pose proof (no_deletion_events _ _ _ Hdel Hb) as Hd.
  apply reconcile_kept in Hts as [Hlen Hel]; [|done|lia].
  apply list_elem_of_lookup in Ht as [j Hj].
  destruct (lookup_lt_is_Some_2 (tasks b) j) as [t0 Ht0];
    [rewrite <- Hlen; by eapply lookup_lt_Some|].
  destruct (Hel j t0 Ht0) as [_ Hhi].
  destruct Hhi as (t1 & Ht1 & Hr); [lia|]. rewrite Hr in Hj. simplify_eq.
  rewrite apply_status_id.
  pose proof (apply_assigned_keeps _ _ _ Ht1) as (Hid1 & Hst1 & _).
  assert (status t1 = "OPEN") as Hopen.
  { rewrite Hst1.
    pose proof (collect_all_open _ _ _ _ Hb (Forall_nil_2 _)) as Ho.
    rewrite Forall_forall in Ho. apply Ho. by eapply list_elem_of_lookup_2. }
  rewrite reopened_branch_is_idle by done.
  assert (id t0 ∈ completed_tasks b ↔ ∃ m, m ∈ l ∧ carries m COMPLETED (id t1)) as Hc.
  { rewrite (collect_all_completed _ _ _ _ (id t0) Hb), Hid1. cbn. set_solver. }
  case_bool_decide as Hin; cbn.
  - split; [by rewrite <- Hc|]. split; [done|]. intros Hno. destruct Hno. by apply Hc.
  - rewrite Hopen. split; [split; [done|by intros ?%Hc]|].
    split; [|done]. intros _ ?%Hc. done.
Qed.

Lemma completion_decides_status_witness :
  ∃ ts, get_tasks_of String.length "spaces/S" reopened_batch = Ok ts ∧
    ∀ t, t ∈ ts →
      (status t = "COMPLETED" ↔ ∃ m, m ∈ reopened_batch ∧ carries m COMPLETED (id t)) ∧
      (status t = "OPEN" ↔ ¬ ∃ m, m ∈ reopened_batch ∧ carries m COMPLETED (id t)).
Proof.
  apply (completion_decides_status String.length "spaces/S" reopened_batch);
    reflexivity.
Defined.

(** ** Messages that are no events, and messages that cannot be read *)

Lemma collect_all_marked space b l :
  collect_all space b l = collect_all space b (filter marked l).
Proof.
  revert b. induction l as [|m l IH]; intros b; [done|].
  rewrite filter_cons. destruct (decide (marked m)) as [Hm|Hm].
  - cbn [collect_all]. destruct (collect space b m); cbn [rbind]; auto.
  - cbn [collect_all]. rewrite collect_not_event; [apply IH|].
    unfold marked in Hm. by destruct (is_event m).
Qed.

(** X10.  A message whose text lacks the marker ["via Tasks"], or that has
    no text, never matters: whatever its other fields, the batch gives what
    it gives without such messages, be it tasks or an exception. *)
Theorem unmarked_messages_are_skipped (rank : string → nat) (space : string)
    (l : list message) :
  get_tasks_of rank space l = get_tasks_of rank space (filter marked l).
Proof. unfold get_tasks_of. by rewrite <- collect_all_marked. Qed.

(** X11.  A creation event without [createTime] makes [get_tasks] raise
    the [KeyError] of that key, when the messages before it are read without
    an exception. *)
Theorem creation_without_time_raises (rank : string → nat) (space : string)
    (pre post : list message) (m : message) (b : buckets) (tid : string) :
  collect_all space no_buckets pre = Ok b →
  carries m CREATED tid →
  createTime m = None →
  get_tasks_of rank space (pre ++ m :: post) = Raise (KeyError "createTime").
Proof.
  intros Hpre [Hk Hid] Htime. unfold get_tasks_of.
  rewrite collect_all_app, Hpre. cbn [rbind collect_all].
  assert (collect space b m = Raise (KeyError "createTime")) as ->; [|done].
  destruct (event_has_text m CREATED Hk) as [txt Htxt].
  destruct (assignee_of_total txt) as [a Ha].
  collect_cases.
Qed.

Lemma creation_without_time_raises_witness :
  get_tasks_of String.length "spaces/S"
    ([ event T2 "Created a task for @Bob (via Tasks)" "2024-01-05T11:00:00Z" ]
     ++ timeless_creation :: [])
  = Raise (KeyError "createTime").
Proof.
  eapply (creation_without_time_raises String.length "spaces/S" _ [] timeless_creation
            _ "T1").
  - reflexivity.
  - by split.
  - reflexivity.
Defined.

(** * More about [analyze_tasks] *)

Lemma analyze_tasks_columns tasks :
  analyze_tasks tasks = {| columns := schema; rows := rows (analyze_tasks tasks) |}.
Proof. by destruct tasks. Qed.

Lemma count_key_cons k x keys :
  count_key k (x :: keys) = (if String.eqb k x then 1 else 0) + count_key k keys.
Proof. unfold count_key. cbn [List.filter]. by destruct (String.eqb k x). Qed.

Lemma sum_count_cons x keys (labels : list string) :
  NoDup labels →
  sum_list_with (λ k, count_key k (x :: keys)) labels =
  sum_list_with (λ k, count_key k keys) labels + (if decide (x ∈ labels) then 1 else 0).
Proof.
  induction 1 as [|y labels Hy Hnd IH]; [done|].
  cbn [sum_list_with]. rewrite IH, count_key_cons.
  destruct (String.eqb_spec y x) as [->|Hne].
  - destruct (decide (x ∈ labels)); [done|].
    destruct (decide (x ∈ x :: labels)); [lia | set_solver].
  - destruct (decide (x ∈ labels)).
    + destruct (decide (x ∈ y :: labels)); [lia | set_solver].
    + destruct (decide (x ∈ y :: labels)); [set_solver | lia].
Qed.

Lemma sum_counts keys (labels : list string) :
  NoDup labels →
  (∀ k, k ∈ keys → k ∈ labels) →
  sum_list_with (λ k, count_key k keys) labels = length keys.
Proof.
  intros Hnd. induction keys as [|x keys IH]; intros Hin.
  - clear. induction labels as [|y labels IH]; [done|]. cbn in *. done.
  - rewrite sum_count_cons by done. rewrite IH by (intros; apply Hin; set_solver).
    rewrite decide_True by (apply Hin; set_solver). cbn. lia.
Qed.

Lemma sum_list_with_fmap {A B} (f : B → nat) (g : A → B) (l : list A) :
  sum_list_with f (g <$> l) = sum_list_with (f ∘ g) l.
Proof. induction l as [|x l IH]; [done|]. cbn. by rewrite IH. Qed.

Lemma sum_list_with_same {A} (f g : A → nat) (l : list A) :
  (∀ x, f x = g x) → sum_list_with f l = sum_list_with g l.
Proof. intros H. induction l as [|x l IH]; [done|]. cbn. by rewrite H, IH. Qed.

Lemma length_filter_completed (l : list task) :
  length (List.filter (λ t, String.eqb (status t) "COMPLETED") l) =
  length (filter (λ t, status t = "COMPLETED") l).
Proof.
  induction l as [|t l IH]; [done|].
  rewrite filter_cons. cbn [List.filter].
  destruct (String.eqb_spec (status t) "COMPLETED").
  - rewrite decide_True by done. cbn. by rewrite IH.
  - rewrite decide_False by done. done.
Qed.

(** X12.  The report loses and invents no task: the tasks received add up
    to the number of tasks, and the tasks completed to the number of tasks
    with the status ["COMPLETED"]. *)
Theorem report_counts_add_up (tasks : list task) :
  sum_list_with tasks_received (rows (analyze_tasks tasks)) = length tasks ∧
  sum_list_with tasks_completed (rows (analyze_tasks tasks)) =
    length (filter (λ t, status t = "COMPLETED") tasks).
Proof.
  rewrite analyze_tasks_rows, !sum_list_with_fmap.
  assert (NoDup (merge_sort String.le (remove_dups (assignee <$> tasks)))) as Hnd.
  { rewrite merge_sort_Permutation. apply NoDup_remove_dups. }
  split.
  - rewrite (sum_list_with_same _ (λ k, count_key k (assignee <$> tasks)))
      by (intros k; cbn; by rewrite count_key_received).
    rewrite sum_counts; [by rewrite length_fmap|done|].
    intros k Hk. by rewrite merge_sort_Permutation, elem_of_remove_dups.
  - rewrite (sum_list_with_same _ (λ k, count_key k (assignee <$>
        List.filter (λ t, String.eqb (status t) "COMPLETED") tasks)))
      by (intros k; cbn; by rewrite count_key_completed).
    rewrite sum_counts; [by rewrite length_fmap, length_filter_completed|done|].
    intros k (t & -> & Ht)%list_elem_of_fmap.
    rewrite merge_sort_Permutation, elem_of_remove_dups.
    apply list_elem_of_fmap_2.
    apply list_elem_of_In, List.filter_In in Ht as [Ht _]. by apply list_elem_of_In.
Qed.

Lemma completed_le_received a (l : list task) : completed_by a l ≤ received_by a l.
Proof.
  unfold completed_by, received_by. induction l as [|t l IH]; [done|].
  rewrite !filter_cons. repeat case_decide; cbn; try lia. naive_solver.
Qed.

(** X13.  In every row the tasks completed are at most the tasks received,
    and the completion rate lies between 0 and 1. *)
Theorem completion_rate_in_unit_interval (tasks : list task) (row : report_row) :
  row ∈ rows (analyze_tasks tasks) →
  tasks_completed row ≤ tasks_received row ∧
  (0 <= completion_rate row)%Q ∧ (completion_rate row <= 1)%Q.
Proof.
  rewrite analyze_tasks_rows. intros (k & -> & Hk)%list_elem_of_fmap. cbn.
  rewrite merge_sort_Permutation, elem_of_remove_dups in Hk.
  pose proof (completed_le_received k tasks) as Hle.
  assert (0 < received_by k tasks) as Hpos.
  { rewrite <- count_key_received. by apply count_key_present. }
  assert (0 < inject_Z (Z.of_nat (received_by k tasks)))%Q as HposQ.
  { change 0%Q with (inject_Z 0). rewrite <- Zlt_Qlt. lia. }
  split; [done|]. split.
  - apply Qle_shift_div_l; [done|]. rewrite Qmult_0_l.
    change 0%Q with (inject_Z 0). rewrite <- Zle_Qle. lia.
  - apply Qle_shift_div_r; [done|]. rewrite Qmult_1_l.
    rewrite <- Zle_Qle. lia.
Qed.

Lemma completion_rate_in_unit_interval_witness :
  let row := {| row_assignee := "A"; tasks_received := 2; tasks_completed := 1;
                completion_rate := Qdiv (inject_Z 1) (inject_Z 2) |} in
  tasks_completed row ≤ tasks_received row ∧
  (0 <= completion_rate row)%Q ∧ (completion_rate row <= 1)%Q.
Proof.
  apply (completion_rate_in_unit_interval three_tasks).
  apply list_elem_of_here.
Defined.

Lemma report_labels tasks :
  row_assignee <$> rows (analyze_tasks tasks) =
  merge_sort String.le (remove_dups (assignee <$> tasks)).
Proof.
  rewrite analyze_tasks_rows, <- list_fmap_compose.
  rewrite <- (list_fmap_id (merge_sort _ _)) at 2.
  by apply list_fmap_ext.
Qed.

(** X14.  The rows of a report come in the order of their assignees, each
    assignee before the greater ones. *)
Theorem report_rows_are_sorted (tasks : list task) :
  StronglySorted String.le (row_assignee <$> rows (analyze_tasks tasks)) ∧
  NoDup (row_assignee <$> rows (analyze_tasks tasks)).
Proof.
  rewrite report_labels. split.
  - apply StronglySorted_merge_sort; apply _.
  - rewrite merge_sort_Permutation. apply NoDup_remove_dups.
Qed.

(** X15.  The report does not depend on the order of the tasks. *)
Theorem report_ignores_task_order (tasks1 tasks2 : list task) :
  tasks1 ≡ₚ tasks2 → analyze_tasks tasks1 = analyze_tasks tasks2.
Proof.
  intros Hperm.
  rewrite (analyze_tasks_columns tasks1), (analyze_tasks_columns tasks2). f_equal.
  rewrite !analyze_tasks_rows.
  assert (merge_sort String.le (remove_dups (assignee <$> tasks1)) =
          merge_sort String.le (remove_dups (assignee <$> tasks2))) as ->.
  { apply (Sorted_unique String.le).
    - apply Sorted_merge_sort; apply _.
    - apply Sorted_merge_sort; apply _.
    - rewrite !merge_sort_Permutation.
      apply NoDup_Permutation; [apply NoDup_remove_dups..|].
      intros k. rewrite !elem_of_remove_dups. by rewrite Hperm. }
  apply list_fmap_ext. intros _ k _.
  unfold received_by, completed_by. by rewrite !Hperm.
Qed.

Lemma report_ignores_task_order_witness :
  analyze_tasks three_tasks = analyze_tasks (reverse three_tasks).
Proof.
  apply (report_ignores_task_order three_tasks (reverse three_tasks)).
  by rewrite reverse_Permutation.
Defined.

(** * Names *)

(** The characters of a text. *)
Lemma chars_lstrip (P : ascii → Prop) s :
  Forall P (String.list_ascii_of_string s) →
  Forall P (String.list_ascii_of_string (Str.lstrip s)).
Proof.
  induction s as [|a s IH]; [done|]. cbn [Str.lstrip].
  destruct (Str.isspace a); [|done]. cbn. intros [_ H]%Forall_cons. auto.
Qed.

Lemma chars_rstrip (P : ascii → Prop) s :
  Forall P (String.list_ascii_of_string s) →
  Forall P (String.list_ascii_of_string (Str.rstrip s)).
Proof.
  induction s as [|a s IH]; [done|]. cbn [Str.rstrip String.list_ascii_of_string].
  intros [Ha H]%Forall_cons. specialize (IH H).
  destruct (Str.rstrip s) as [|b r].
  - destruct (Str.isspace a); cbn; auto.
  - cbn in *. auto.
Qed.

Lemma lstrip_lstrip s : Str.lstrip (Str.lstrip s) = Str.lstrip s.
Proof.
  induction s as [|a s IH]; [done|]. cbn [Str.lstrip].
  destruct (Str.isspace a) eqn:Ha; [done|]. cbn [Str.lstrip]. by rewrite Ha.
Qed.

Lemma rstrip_rstrip s : Str.rstrip (Str.rstrip s) = Str.rstrip s.
Proof.
  induction s as [|a s IH]; [done|]. cbn [Str.rstrip].
  destruct (Str.rstrip s) as [|b r] eqn:Hr.
  - destruct (Str.isspace a) eqn:Ha; [done|]. cbn. by rewrite Ha.
  - cbn [Str.rstrip] in *. by rewrite IH.
Qed.

Lemma lstrip_rstrip s : Str.lstrip (Str.rstrip s) = Str.rstrip (Str.lstrip s).
Proof.
  induction s as [|a s IH]; [done|]. cbn [Str.rstrip Str.lstrip].
  destruct (Str.isspace a) eqn:Ha.
  - rewrite <- IH. destruct (Str.rstrip s) as [|b r]; [done|].
    cbn [Str.lstrip]. by rewrite Ha.
  - cbn [Str.rstrip]. destruct (Str.rstrip s) as [|b r];
      rewrite ?Ha; cbn [Str.lstrip]; by rewrite Ha.
Qed.

Lemma strip_strip s : Str.strip (Str.strip s) = Str.strip s.
Proof.
  unfold Str.strip.
  by rewrite lstrip_rstrip, lstrip_lstrip, rstrip_rstrip.
Qed.

Lemma lower_plain c : nat_of_ascii c < 128 → plain_lower (lower c).
Proof.
  intros Hc. unfold lower, plain_lower.
  destruct (andb _ _) eqn:Hup.
  - apply andb_true_iff in Hup as [H1%Nat.leb_le H2%Nat.leb_le].
    rewrite nat_ascii_embedding by lia. lia.
  - split; [done|]. intros [H1 H2].
    apply andb_false_iff in Hup as [H%Nat.leb_gt|H%Nat.leb_gt]; lia.
Qed.

Lemma lower_of_plain c : plain_lower c → lower c = c.
Proof.
  intros [_ Hc]. unfold lower.
  destruct (andb _ _) eqn:Hup; [|done].
  apply andb_true_iff in Hup as [H1%Nat.leb_le H2%Nat.leb_le]. lia.
Qed.

Lemma ascii_ignore_below points :
  Forall (λ c, nat_of_ascii c < 128) (ascii_ignore points).
Proof.
  unfold ascii_ignore. apply Forall_fmap, Forall_forall.
  intros n [Hn _]%list_elem_of_filter. cbn.
  unfold nat_of_ascii. rewrite N_ascii_embedding by lia. lia.
Qed.

Lemma normalize_name_chars nfkd name :
  Forall plain_lower (String.list_ascii_of_string (normalize_name nfkd name)).
Proof.
  unfold normalize_name, Str.strip. apply chars_rstrip, chars_lstrip.
  rewrite String.list_ascii_of_string_of_list_ascii.
  apply Forall_fmap. eapply Forall_impl; [apply ascii_ignore_below|].
  intros c Hc. by apply lower_plain.
Qed.

(** X16.  A normalized name holds only code points below 128, no capital
    letter, and no whitespace at either end, whatever the name was. *)
Theorem normalized_names_are_plain (nfkd : ascii → list N) (name : string) :
  Forall plain_lower (String.list_ascii_of_string (normalize_name nfkd name)) ∧
  Str.strip (normalize_name nfkd name) = normalize_name nfkd name.
Proof.
  split; [apply normalize_name_chars|].
  unfold normalize_name. apply strip_strip.
Qed.

Lemma normalize_plain nfkd s :
  (∀ c, nat_of_ascii c < 128 → nfkd c = [N_of_ascii c]) →
  Forall plain_lower (String.list_ascii_of_string s) →
  normalize_name nfkd s = Str.strip s.
Proof.
  intros Hid Hs. unfold normalize_name. f_equal.
  rewrite <- (String.string_of_list_ascii_of_string s) at 2. f_equal.
  induction Hs as [|c l [Hc Hup] Hl IH]; [done|].
  cbn [mbind list_bind]. rewrite (Hid c Hc). cbn [app].
  unfold ascii_ignore in *. rewrite filter_cons.
  rewrite decide_True
    by (unfold nat_of_ascii in Hc; lia).
  cbn [fmap list_fmap]. rewrite ascii_N_embedding.
  rewrite lower_of_plain by done. f_equal. apply IH.
Qed.

(** X17.  Normalizing is idempotent, given that the decomposition leaves
    the code points below 128 as they are: a normalized name is the normal
    form of itself. *)
Theorem normalize_name_idempotent (nfkd : ascii → list N) (name : string) :
  (∀ c, nat_of_ascii c < 128 → nfkd c = [N_of_ascii c]) →
  normalize_name nfkd (normalize_name nfkd name) = normalize_name nfkd name.
Proof.
  intros Hid. rewrite (normalize_plain nfkd _ Hid (normalize_name_chars nfkd name)).
  unfold normalize_name. apply strip_strip.
Qed.

Lemma normalize_name_idempotent_witness :
  normalize_name no_decomposition (normalize_name no_decomposition "  Ann LEE ") =
  normalize_name no_decomposition "  Ann LEE ".
Proof. apply (normalize_name_idempotent no_decomposition). done. Defined.


(** * Filtering *)

Lemma filter_tasks_spec nfkd (l : list task) (people space_names : list string) t :
  t ∈ filter_tasks nfkd l people space_names ↔
  t ∈ l ∧
  (∃ p, p ∈ people ∧ normalize_name nfkd p = normalize_name nfkd (assignee t)) ∧
  space_name t ∈ space_names.
Proof.
  unfold filter_tasks. rewrite list_elem_of_filter.
  rewrite !elem_of_list_to_set, list_elem_of_fmap. split.
  - intros [[(p & Hp & Hin) Hs] Ht]. eauto.
  - intros (Ht & (p & Hin & Hp) & Hs). eauto.
Qed.

(** X18.  [filter_tasks] keeps, in their order, the tasks whose assignee
    has the normal form of a listed person and whose space name is listed,
    and only those: names are compared in normal form on both sides, spaces
    as they are. *)
Theorem filter_tasks_keeps_known (nfkd : ascii → list N) (l : list task)
    (people space_names : list string) :
  sublist (filter_tasks nfkd l people space_names) l ∧
  ∀ t, t ∈ filter_tasks nfkd l people space_names ↔
       t ∈ l ∧
       (∃ p, p ∈ people ∧ normalize_name nfkd p = normalize_name nfkd (assignee t)) ∧
       space_name t ∈ space_names.
Proof.
  split; [apply sublist_filter | intros t; apply filter_tasks_spec].
Qed.

(** ** The tasks of the [report] command *)

Lemma filter_same_on {A} (P1 P2 : A → Prop) `{!∀ x, Decision (P1 x)}
    `{!∀ x, Decision (P2 x)} (l : list A) :
  (∀ x, x ∈ l → P1 x ↔ P2 x) → filter P1 l = filter P2 l.
Proof.
  induction l as [|a l IH]; intros Hsame; [done|].
  rewrite !filter_cons, IH by (intros; apply Hsame; set_solver).
  destruct (decide (P1 a)) as [Ha1|Ha1], (decide (P2 a)) as [Ha2|Ha2]; try done.
  - destruct Ha2. apply Hsame; [set_solver|done].
  - destruct Ha1. apply Hsame; [set_solver|done].
Qed.

Lemma fetch_all_tasks_spaces rank service fuel (l : list chat_space)
    start_date end_date ts :
  fetch_all_tasks rank service fuel l start_date end_date = Some (Ok ts) →
  ∀ t, t ∈ ts → space_name t ∈ space_id <$> l.
Proof.
  revert ts. induction l as [|sp l IH]; intros ts H t Ht.
  - cbn in H. simplify_eq. by apply elem_of_nil in Ht.
  - cbn [fetch_all_tasks] in H.
    destruct (get_tasks rank service fuel (space_id sp) start_date end_date)
      as [[ts1|e]|] eqn:Hsp; cbn in H; simplify_eq.
    destruct (fetch_all_tasks rank service fuel l start_date end_date)
      as [[ts2|e]|] eqn:Hl; cbn in H; simplify_eq.
    rewrite fmap_cons. apply elem_of_app in Ht as [Ht|Ht].
    + unfold get_tasks in Hsp.
      destruct (get_messages_for_space service fuel (space_id sp) start_date end_date)
        as [msgs|]; cbn in Hsp; simplify_eq.
      destruct (get_tasks_of_origin _ _ _ _ Hsp) as [_ Horigin].
      destruct (Horigin t Ht) as [-> _]. apply list_elem_of_here.
    + apply list_elem_of_further. by eapply IH.
Qed.

(** X19.  In the [report] command the space test of [filter_tasks] never
    rejects a task: the tasks fetched for a list of spaces carry the names of
    those spaces, so filtering them with these names keeps exactly the tasks
    of the known people. *)
Theorem report_filter_is_by_people (rank : string → nat) (service : chat_service)
    (fuel : nat) (l : list chat_space) (start_date end_date : string)
    (nfkd : ascii → list N) (people : list string) (ts : list task) :
  fetch_all_tasks rank service fuel l start_date end_date = Some (Ok ts) →
  filter_tasks nfkd ts people (space_id <$> l) = filter (known nfkd people) ts.
Proof.
  intros H. unfold filter_tasks. apply filter_same_on.
  intros t Ht. unfold known. cbv zeta.
  pose proof (fetch_all_tasks_spaces _ _ _ _ _ _ _ H t Ht) as Hsp.
  split; [by intros [? _]|]. intros Hp. split; [done|].
  by apply elem_of_list_to_set.
Qed.

Lemma report_filter_is_by_people_witness :
  filter_tasks no_decomposition
    [ {| id := "T1"; assignee := "Ann Lee"; status := "COMPLETED";
         created_time := "2024-01-05T10:00:00Z"; space_name := "spaces/A" |} ]
    [" ann lee"] (space_id <$> [room "spaces/A"]) =
  filter (known no_decomposition [" ann lee"])
    [ {| id := "T1"; assignee := "Ann Lee"; status := "COMPLETED";
         created_time := "2024-01-05T10:00:00Z"; space_name := "spaces/A" |} ].
Proof.
  apply (report_filter_is_by_people String.length (serve two_rooms) 5
           [room "spaces/A"] "2024-01-01T00:00:00Z" "2024-02-01T00:00:00Z").
  reflexivity.
Defined.

(** * Formatted tasks *)

(** X20.  In [get_formatted_tasks] a space whose messages make [get_tasks]
    raise is passed over: the tasks of the spaces before and after it come
    out as if the space were not in the list. *)
Theorem failing_space_is_passed_over (rank : string → nat) (service : chat_service)
    (fuel : nat) (pre post : list chat_space) (sp : chat_space)
    (start_date end_date : string) (e : exn) :
  get_tasks rank service fuel (space_id sp) start_date end_date = Some (Raise e) →
  get_formatted_tasks rank service fuel (pre ++ sp :: post) start_date end_date =
  get_formatted_tasks rank service fuel (pre ++ post) start_date end_date.
Proof.
  intros Hsp. induction pre as [|sp' pre IH].
  - cbn [app get_formatted_tasks]. rewrite Hsp. cbn.
    by destruct (get_formatted_tasks rank service fuel post start_date end_date).
  - cbn [app get_formatted_tasks]. by rewrite IH.
Qed.

Lemma failing_space_is_passed_over_witness :
  get_formatted_tasks String.length (serve two_rooms) 5
    ([room "spaces/A"] ++ room "spaces/B" :: [room "spaces/C"])
    "2024-01-01T00:00:00Z" "2024-02-01T00:00:00Z" =
  get_formatted_tasks String.length (serve two_rooms) 5
    ([room "spaces/A"] ++ [room "spaces/C"])
    "2024-01-01T00:00:00Z" "2024-02-01T00:00:00Z".
Proof.
  apply (failing_space_is_passed_over String.length (serve two_rooms) 5
           [room "spaces/A"] [room "spaces/C"] (room "spaces/B")
           "2024-01-01T00:00:00Z" "2024-02-01T00:00:00Z" IndexError).
  reflexivity.
Defined.

(** The formatted tasks of a good space followed by a failing one. *)
Example formatted_tasks_example :
  get_formatted_tasks String.length (serve two_rooms) 5
    [room "spaces/A"; room "spaces/B"]
    "2024-01-01T00:00:00Z" "2024-02-01T00:00:00Z" =
  Some [ {| f_id := "T1"; f_assignee := "Ann Lee"; f_status := "COMPLETED";
            f_space := "Team"; f_created_at := "2024-01-05T10:00:00Z";
            f_last_updated := "2024-01-05T10:00:00Z" |} ].
Proof. reflexivity. Qed.

(** * Default dates *)

(** X21.  The default range is the calendar month before today's: it
    starts on day 1 of that month and ends on its last day, and both ends
    carry today's time of day. *)
Theorem default_dates_are_previous_month (today : datetime) :
  1 ≤ month today →
  1 < year today ∨ 1 < month today →
  let y := if month today =? 1 then year today - 1 else year today in
  let m := if month today =? 1 then 12 else month today - 1 in
  let at_day d :=
    {| year := y; month := m; day := d; hour := hour today;
       minute := minute today; second := second today;
       microsecond := microsecond today |} in
  get_default_dates today =
  Some (isoformat (at_day 1) +:+ "Z", isoformat (at_day (days_in_month y m)) +:+ "Z").
Proof.
  intros Hm Hy. destruct today as [y m d h mi s us]. cbn [year month] in *.
  unfold get_default_dates, minus_one_day, replace_day.
  cbn [day month year hour minute second microsecond]. cbn [Nat.ltb Nat.leb].
  destruct m as [|[|m]]; [lia| |].
  - destruct y as [|[|y]]; [lia|lia|]. reflexivity.
  - reflexivity.
Qed.

Lemma default_dates_are_previous_month_witness :
  get_default_dates (DateTime 2024 3 15 14 23 11 0) =
  Some ("2024-02-01T14:23:11Z", "2024-02-29T14:23:11Z").
Proof.
  apply (default_dates_are_previous_month (DateTime 2024 3 15 14 23 11 0)); cbn; lia.
Defined.
